(** * The stage-inference engine of journey_api (src/app/assessment.py)

    A shallow embedding of the questionnaire scorer, the signal normaliser,
    the per-user state update and the configuration loader/fingerprint,
    then of the parts of the request layer that compute (src/app/main.py,
    the row filter of src/app/supabase_store.py), followed by the
    properties established about them.

    Modelling conventions.
    - The scorer and the loader are embedded twice.  Module [B64] has
      Python's [float] as the IEEE 754 binary64 value it is, with rounding,
      overflow, infinities, signed zeros and NaN, and the [OverflowError]
      of [float(...)] on an [int]; every statement about the numbers
      [assess_stage] returns and about the ways the loader fails is made
      there.  The first embedding computes in exact rational arithmetic
      over [Q]; it carries the statements that hold of the code whatever
      the rounding: which entries are read and written, the coverage as a
      fraction of counts, the case without any signal, the state update.
    - A Python [dict] with string keys whose iteration order is never
      observed is a [gmap string _]; [d.get(k, None)] on a dict of optional
      values is [sig_get].  Dicts whose key order is part of the question
      (the JSON document that is fingerprinted) are association lists.
    - [str] values are sequences of code points below 256, one [ascii] per
      code point. *)

From Stdlib Require Import ZArith QArith Qround String Ascii List Lia Lqa OrderedTypeEx Sorted SpecFloat.
From stdpp Require Import gmap strings list fin_maps pretty.

Local Open Scope string_scope.

(** ** Data model *)

(** One entry of [cfg["questions"]]: [{"id": .., "text": .., "weights": {..}}]. *)
Record Question := mkQuestion {
  q_id : string;
  q_text : string;
  q_weights : gmap string Q
}.

(** The loaded configuration dict.  [version] and [answer_scale] are read
    with [cfg.get(key, default)] in the source, so they may be absent. *)
Record Config := mkConfig {
  version : option string;
  stages : list string;
  answer_scale : option (list Z);
  questions : list Question
}.

(** [signals.get(qid, None)]: a missing key and a stored [None] read alike. *)
Definition sig_get (signals : gmap string (option Z)) (qid : string) : option Z :=
  default None (signals !! qid).

(** [q["weights"].get(s, 0.0)] *)
Definition weight (q : Question) (s : string) : Q :=
  default 0%Q (q_weights q !! s).

(** [float(v)] for an [int] *)
Definition float_of_int (v : Z) : Q := inject_Z v.

(** ** Stage scorer *)

Module Scorer.

(** [scores[s]] for a key that the dict holds; the scorer only reads keys
    it has put in ([scores_keys] below), so the [KeyError] branch is dead. *)
Definition item (scores : gmap string Q) (s : string) : Q :=
  default 0%Q (scores !! s).

(** [{s: 0.0 for s in stages}] *)
Definition init_scores (stgs : list string) : gmap string Q :=
  foldl (λ d s, <[s := 0%Q]> d) ∅ stgs.

(** The inner loop: [for s in stages: scores[s] += q["weights"].get(s, 0.0) * float(v)] *)
Definition add_answer (stgs : list string) (q : Question) (v : Z)
    (scores : gmap string Q) : gmap string Q :=
  foldl (λ d s, <[s := (item d s + weight q s * float_of_int v)%Q]> d) scores stgs.

(** The outer loop body, with its [continue] on a null signal. *)
Definition score_step (stgs : list string) (signals : gmap string (option Z))
    (scores : gmap string Q) (q : Question) : gmap string Q :=
  match sig_get signals (q_id q) with
  | None => scores
  | Some v => add_answer stgs q v scores
  end.

Definition raw_scores (cfg : Config) (signals : gmap string (option Z)) : gmap string Q :=
  foldl (score_step (stages cfg) signals) (init_scores (stages cfg)) (questions cfg).

(** Python's two-argument [max(a, b)]: [b] only when [b > a]. *)
Definition py_max (a b : Q) : Q := if Qle_bool b a then a else b.

(** [vec = np.array([max(scores[s], 0.0) for s in stages])] *)
Definition clamped (stgs : list string) (scores : gmap string Q) : list Q :=
  (λ s, py_max (item scores s) 0%Q) <$> stgs.

(** [vec.sum()] *)
Definition vsum (vec : list Q) : Q := foldl Qplus 0%Q vec.

(** [if vec.sum() > 0: vec = vec / vec.sum()] *)
Definition normalise (vec : list Q) : list Q :=
  let t := vsum vec in
  if negb (Qle_bool t 0%Q) then (λ x, (x / t)%Q) <$> vec else vec.

(** [{stages[i]: float(vec[i]) for i in range(len(stages))}]: a later
    duplicate key overwrites an earlier one. *)
Definition to_dict (stgs : list string) (vec : list Q) : gmap string Q :=
  foldl (λ d kv, <[kv.1 := kv.2]> d) ∅ (zip stgs vec).

(** [sum(1 for q in cfg["questions"] if signals.get(q["id"], None) is not None)] *)
Definition answered (cfg : Config) (signals : gmap string (option Z)) : nat :=
  length (filter (λ q, is_Some (sig_get signals (q_id q))) (questions cfg)).

(** [... / max(len(cfg["questions"]), 1)] *)
Definition coverage_of (cfg : Config) (signals : gmap string (option Z)) : Q :=
  (inject_Z (Z.of_nat (answered cfg signals))
   / inject_Z (Z.of_nat (Nat.max (length (questions cfg)) 1)))%Q.

(** [max(xs)] on a non-empty sequence; the caller guards the empty case. *)
Definition max_of (xs : list Q) : Q :=
  match xs with
  | [] => 0%Q
  | x :: rest => foldl py_max x rest
  end.

(** [max(probs.values()) if probs else 0.0].  The order in which the values
    are visited only selects among equal maxima. *)
Definition dominance_of (probs : gmap string Q) : Q :=
  max_of ((map_to_list probs).*2).

(** [conf_score = 0.6 * dominance + 0.4 * coverage] *)
Definition conf_score_of (dominance coverage : Q) : Q :=
  (0.6 * dominance + 0.4 * coverage)%Q.

Definition conf_label (conf_score : Q) : string :=
  if Qle_bool 0.75 conf_score then "high"
  else if Qle_bool 0.45 conf_score then "medium"
  else "low".

End Scorer.

(** [assess_stage(cfg, signals)] returns [(probs, conf, scores, coverage)]. *)
Definition assess_stage (cfg : Config) (signals : gmap string (option Z))
    : gmap string Q * string * gmap string Q * Q :=
  let stgs := stages cfg in
  let scores := Scorer.raw_scores cfg signals in
  let vec := Scorer.normalise (Scorer.clamped stgs scores) in
  let probs := Scorer.to_dict stgs vec in
  let coverage := Scorer.coverage_of cfg signals in
  let dominance := Scorer.dominance_of probs in
  let conf_score := Scorer.conf_score_of dominance coverage in
  (probs, Scorer.conf_label conf_score, scores, coverage).

Definition probs_of (r : gmap string Q * string * gmap string Q * Q) : gmap string Q := r.1.1.1.
Definition conf_of (r : gmap string Q * string * gmap string Q * Q) : string := r.1.1.2.
Definition scores_of (r : gmap string Q * string * gmap string Q * Q) : gmap string Q := r.1.2.
Definition cov_of (r : gmap string Q * string * gmap string Q * Q) : Q := r.2.

(** ** Python values

    What a signal batch parsed from the model's reply, and the configuration
    document, can hold. *)

Inductive pyfloat :=
| FFinite (q : Q)
| FInf (negative : bool)
| FNan.

#[local] Unset Elimination Schemes.
Inductive pyval :=
| PyNone
| PyBool (b : bool)
| PyInt (z : Z)
| PyFloat (f : pyfloat)
| PyStr (s : string)
| PyList (xs : list pyval)
| PyDict (kvs : list (string * pyval)).
#[local] Set Elimination Schemes.

Module PyInt.

(** The characters [int()] skips around a numeral, among code points
    below 256: tab, LF, VT, FF, CR, space, NEL (0x85) and NBSP (0xA0). *)
Definition is_space (c : ascii) : bool :=
  let n := nat_of_ascii c in
  ((9 <=? n) && (n <=? 13) || (n =? 32) || (n =? 133) || (n =? 160))%nat.

Definition digit_of (c : ascii) : option Z :=
  let n := nat_of_ascii c in
  if ((48 <=? n) && (n <=? 57))%nat then Some (Z.of_nat (n - 48)) else None.

Fixpoint lstrip (s : list ascii) : list ascii :=
  match s with
  | c :: rest => if is_space c then lstrip rest else s
  | [] => []
  end.

Definition strip (s : list ascii) : list ascii := rev (lstrip (rev (lstrip s))).

(** CPython's default [sys.get_int_max_str_digits()]. *)
Definition int_max_str_digits : nat := 4300.

(** Decimal digits, single underscores allowed between two digits.
    [acc] is the value read so far, [n] the number of digits read and
    [after_digit] tells whether the previous character was a digit. *)
Fixpoint digits (acc : Z) (n : nat) (after_digit : bool) (s : list ascii) : option Z :=
  match s with
  | [] => if after_digit && (n <=? int_max_str_digits)%nat then Some acc else None
  | c :: rest =>
      match digit_of c with
      | Some d => digits (10 * acc + d) (S n) true rest
      | None =>
          if Ascii.eqb c "_" && after_digit then digits acc n false rest else None
      end
  end.

(** [int(s)] for a [str]: [None] stands for [ValueError]. *)
Definition of_str (s : string) : option Z :=
  match strip (list_ascii_of_string s) with
  | c :: rest =>
      if Ascii.eqb c "-" then Z.opp <$> digits 0 0 false rest
      else if Ascii.eqb c "+" then digits 0 0 false rest
      else digits 0 0 false (c :: rest)
  | [] => None
  end.

(** [int(x)] for a finite [float]: truncation toward zero. *)
Definition trunc (q : Q) : Z := Z.quot (Qnum q) (Z.pos (Qden q)).

End PyInt.

(** [int(v)]; [None] stands for any raised [Exception] ([TypeError] for
    [None], lists and dicts, [ValueError] for NaN and for a string that is
    no numeral, [OverflowError] for an infinity). *)
Definition py_int (v : pyval) : option Z :=
  match v with
  | PyBool b => Some (Z.b2z b)
  | PyInt z => Some z
  | PyFloat (FFinite q) => Some (PyInt.trunc q)
  | PyStr s => PyInt.of_str s
  | PyNone | PyFloat (FInf _) | PyFloat FNan | PyList _ | PyDict _ => None
  end.

(** ** Signal normaliser *)

(** [set(cfg.get("answer_scale", [-2,-1,0,1,2]))] *)
Definition allowed (cfg : Config) : gset Z :=
  list_to_set (default [-2; -1; 0; 1; 2]%Z (answer_scale cfg)).

(** What both loops do with [incoming.get(qid, None)]: [Some iv] when the
    value is not [None], [int(v)] succeeds and [iv in allowed]. *)
Definition accept (cfg : Config) (incoming : gmap string pyval) (qid : string) : option Z :=
  match incoming !! qid with
  | None | Some PyNone => None
  | Some v =>
      match py_int v with
      | None => None
      | Some iv => if decide (iv ∈ allowed cfg) then Some iv else None
      end
  end.

Definition normalize_signals (cfg : Config) (incoming : gmap string pyval)
    : gmap string (option Z) :=
  foldl (λ out q, <[q_id q := accept cfg incoming (q_id q)]> out) ∅ (questions cfg).

(** ** Canonical serialisation: [json.dumps(cfg, sort_keys=True)] *)

Module FloatRepr.

(** [float.__repr__]: the shortest decimal numeral that reads back as the
    same binary64 value, laid out as CPython does.  The rational is first
    rounded to the nearest binary64 value (ties to even); a magnitude
    beyond the binary64 range is printed as if the exponent were unbounded,
    and [Q] has no negative zero. *)

Definition pow2 (e : Z) : Q := Qpower 2 e.
Definition pow10 (k : Z) : Q := Qpower 10 k.

Definition round_half_even (q : Q) : Z :=
  let f := Qfloor q in
  match Qcompare (q - inject_Z f) (1 # 2) with
  | Lt => f
  | Gt => (f + 1)%Z
  | Eq => if Z.even f then f else (f + 1)%Z
  end.

(** The integer part of the base-2 logarithm of a positive rational. *)
Definition ilog2 (a : Q) : Z :=
  let k := (Z.log2 (Qnum a) - Z.log2 (Z.pos (Qden a)))%Z in
  if Qle_bool (pow2 k) a then k else (k - 1)%Z.

(** The binary64 value nearest to a positive rational, as mantissa and
    exponent: [m * 2^e] with [m < 2^53] and [e >= -1074]. *)
Definition to_double (a : Q) : Z * Z :=
  let e := Z.max (ilog2 a - 52) (-1074) in
  let m := round_half_even (a / pow2 e) in
  if (m =? 2 ^ 53)%Z then (2 ^ 52, e + 1)%Z else (m, e).

Definition value (me : Z * Z) : Q := (inject_Z me.1 * pow2 me.2)%Q.

Definition same (x y : Z * Z) : bool := (x.1 =? y.1)%Z && (x.2 =? y.2)%Z.

(** The integer part of the base-10 logarithm of a positive rational. *)
Definition ilog10 (x : Q) : Z :=
  let k := (ilog2 x * 30103 / 100000)%Z in
  let k := if Qle_bool (pow10 (k + 1)) x then (k + 1)%Z else k in
  let k := if Qle_bool (pow10 (k + 1)) x then (k + 1)%Z else k in
  let k := if Qle_bool (pow10 k) x then k else (k - 1)%Z in
  if Qle_bool (pow10 k) x then k else (k - 1)%Z.

(** The [n]-digit decimals next to [x] that read back as [me], nearest
    first: a pair [(c, k)] stands for [c * 10^k]. *)
Definition try_digits (x : Q) (me : Z * Z) (n : Z) : option (Z * Z) :=
  let k := (ilog10 x - n + 1)%Z in
  let y := (x / pow10 k)%Q in
  let lo := Qfloor y in
  let hi := (lo + 1)%Z in
  let ok c := same (to_double (inject_Z c * pow10 k)) me in
  match ok lo, ok hi with
  | true, true =>
      if Qle_bool (y - inject_Z lo) (inject_Z hi - y) then Some (lo, k) else Some (hi, k)
  | true, false => Some (lo, k)
  | false, true => Some (hi, k)
  | false, false => None
  end.

Fixpoint shortest (x : Q) (me : Z * Z) (n : Z) (fuel : nat) : Z * Z :=
  match fuel with
  | O => (Qfloor x, 0%Z)
  | S fuel' =>
      match try_digits x me n with
      | Some r => r
      | None => shortest x me (n + 1) fuel'
      end
  end.

Fixpoint strip_zeros (c k : Z) (fuel : nat) : Z * Z :=
  match fuel with
  | O => (c, k)
  | S fuel' => if (c mod 10 =? 0)%Z then strip_zeros (c / 10) (k + 1) fuel' else (c, k)
  end.

Definition zeros (n : Z) : string := String.concat EmptyString (replicate (Z.to_nat n) "0").

Definition two_digits (n : Z) : string :=
  if (n <? 10)%Z then "0" ++ pretty n else pretty n.

(** The layout of [repr]: exponent notation when the decimal point falls
    more than 16 places right or more than 3 places left of the digits. *)
Definition layout (ds : string) (decpt : Z) : string :=
  let nd := Z.of_nat (String.length ds) in
  if (decpt <=? -4)%Z || (16 <? decpt)%Z then
    substring 0 1 ds
    ++ (if (1 <? nd)%Z then "." ++ substring 1 (String.length ds - 1) ds else EmptyString)
    ++ "e" ++ (if (decpt - 1 <? 0)%Z then "-" else "+") ++ two_digits (Z.abs (decpt - 1))
  else if (decpt <=? 0)%Z then "0." ++ zeros (- decpt) ++ ds
  else if (nd <=? decpt)%Z then ds ++ zeros (decpt - nd) ++ ".0"
  else substring 0 (Z.to_nat decpt) ds ++ "."
       ++ substring (Z.to_nat decpt) (String.length ds - Z.to_nat decpt) ds.

Definition repr_pos (a : Q) : string :=
  let me := to_double a in
  if (me.1 =? 0)%Z then "0.0"
  else
    let x := value me in
    let ck := shortest x me 1 17 in
    let ck := strip_zeros ck.1 ck.2 400 in
    let ds := pretty ck.1 in
    layout ds (ck.2 + Z.of_nat (String.length ds)).

Definition repr (q : Q) : string :=
  match Qnum q with
  | Z0 => "0.0"
  | Z.pos _ => repr_pos q
  | Z.neg _ => "-" ++ repr_pos (Qopp q)
  end.

End FloatRepr.

Module Sha256.

(** [hashlib.sha256(blob).hexdigest()] (FIPS 180-4), on 32-bit words held
    in [Z]. *)

Local Open Scope Z_scope.

Definition mask : Z := 0xffffffff.
Definition add32 (a b : Z) : Z := Z.land (a + b) mask.
Definition rotr (n x : Z) : Z :=
  Z.lor (Z.shiftr x n) (Z.land (Z.shiftl x (32 - n)) mask).
Definition xor3 (a b c : Z) : Z := Z.lxor a (Z.lxor b c).

Definition Ch (x y z : Z) : Z := Z.lxor (Z.land x y) (Z.land (Z.lxor x mask) z).
Definition Maj (x y z : Z) : Z := xor3 (Z.land x y) (Z.land x z) (Z.land y z).
Definition Sigma0 (x : Z) : Z := xor3 (rotr 2 x) (rotr 13 x) (rotr 22 x).
Definition Sigma1 (x : Z) : Z := xor3 (rotr 6 x) (rotr 11 x) (rotr 25 x).
Definition sigma0 (x : Z) : Z := xor3 (rotr 7 x) (rotr 18 x) (Z.shiftr x 3).
Definition sigma1 (x : Z) : Z := xor3 (rotr 17 x) (rotr 19 x) (Z.shiftr x 10).

(** The round constants are the first 32 bits of the fractional parts of
    the cube roots of the first 64 primes, the initial hash value those of
    the square roots of the first 8. *)
Definition is_prime (n : Z) : bool :=
  forallb (λ d, negb (n mod d =? 0)) (Z.of_nat <$> seq 2 (Z.to_nat n - 2)).

Definition primes : list Z :=
  Eval vm_compute in filter (λ n, is_prime n = true) (Z.of_nat <$> seq 2 310).

(** The integer part of the cube root, bit by bit from bit [b] down. *)
Fixpoint icbrt (n r : Z) (b : nat) : Z :=
  let r' := r + 2 ^ Z.of_nat b in
  let r := if r' * r' * r' <=? n then r' else r in
  match b with
  | O => r
  | S b' => icbrt n r b'
  end.

Definition K : list Z :=
  Eval vm_compute in (λ p, icbrt (p * 2 ^ 96) 0 40 mod 2 ^ 32) <$> primes.

Definition H0 : list Z :=
  Eval vm_compute in (λ p, Z.sqrt (p * 2 ^ 64) mod 2 ^ 32) <$> take 8 primes.

(** Big-endian bytes of the low [n] bytes of [x]. *)
Fixpoint be_bytes (n : nat) (x : Z) : list Z :=
  match n with
  | O => []
  | S n' => be_bytes n' (Z.shiftr x 8) ++ [Z.land x 0xff]
  end.

Definition pad (msg : list Z) : list Z :=
  let len := Z.of_nat (length msg) in
  let k := (55 - len) mod 64 in
  msg ++ [0x80] ++ replicate (Z.to_nat k) 0 ++ be_bytes 8 (8 * len).

Definition word_of (bs : list Z) : Z := foldl (λ acc b, acc * 256 + b) 0 bs.

Fixpoint chunks {A} (n : nat) (l : list A) (fuel : nat) : list (list A) :=
  match fuel, l with
  | O, _ | _, [] => []
  | S fuel', _ => take n l :: chunks n (drop n l) fuel'
  end.

(** The message schedule, most recent word first. *)
Fixpoint extend (ws : list Z) (count : nat) : list Z :=
  match count with
  | O => ws
  | S count' =>
      let w := add32 (add32 (sigma1 (nth 1 ws 0)) (nth 6 ws 0))
                     (add32 (sigma0 (nth 14 ws 0)) (nth 15 ws 0)) in
      extend (w :: ws) count'
  end.

Definition schedule (block : list Z) : list Z :=
  rev (extend (rev (word_of <$> chunks 4 block 16)) 48).

Definition round (st : list Z) (kw : Z * Z) : list Z :=
  match st with
  | [a; b; c; d; e; f; g; h] =>
      let t1 := add32 (add32 (add32 h (Sigma1 e)) (add32 (Ch e f g) kw.1)) kw.2 in
      let t2 := add32 (Sigma0 a) (Maj a b c) in
      [add32 t1 t2; a; b; c; add32 d t1; e; f; g]
  | _ => st
  end.

Definition compress (h : list Z) (block : list Z) : list Z :=
  zip_with add32 h (foldl round h (zip K (schedule block))).

Definition digest (msg : list Z) : list Z :=
  let p := pad msg in
  foldl compress H0 (chunks 64 p (length p)).

Definition hex_digit (d : Z) : ascii :=
  ascii_of_nat (Z.to_nat (if d <? 10 then 48 + d else 87 + d)).

Fixpoint hex (n : nat) (x : Z) : string :=
  match n with
  | O => EmptyString
  | S n' => hex n' (Z.shiftr x 4) ++ String (hex_digit (Z.land x 15)) EmptyString
  end.

Definition hexdigest (msg : list Z) : string :=
  String.concat EmptyString (hex 8 <$> digest msg).

End Sha256.

Module Json.

(** [json.encoder.encode_basestring_ascii]: everything outside the
    printable ASCII range is escaped. *)
Definition escape_char (c : ascii) : string :=
  let n := nat_of_ascii c in
  if Ascii.eqb c (ascii_of_nat 34) then String "\" (String (ascii_of_nat 34) EmptyString)
  else if Ascii.eqb c "\" then "\\"
  else if (n =? 10)%nat then "\n"
  else if (n =? 13)%nat then "\r"
  else if (n =? 9)%nat then "\t"
  else if (n =? 12)%nat then "\f"
  else if (n =? 8)%nat then "\b"
  else if ((n <? 32) || (126 <? n))%nat then "\u" ++ Sha256.hex 4 (Z.of_nat n)
  else String c EmptyString.

Definition quote : string := String (ascii_of_nat 34) EmptyString.

Definition encode_str (s : string) : string :=
  quote ++ String.concat EmptyString (escape_char <$> list_ascii_of_string s) ++ quote.

(** [float.__repr__] with the three non-finite spellings of the encoder. *)
Definition encode_float (f : pyfloat) : string :=
  match f with
  | FFinite q => FloatRepr.repr q
  | FInf false => "Infinity"
  | FInf true => "-Infinity"
  | FNan => "NaN"
  end.

(** [sorted(dct.items())]: a stable insertion sort on the key; the keys of
    a dict are distinct, so the values are never compared. *)
Fixpoint insert_item (kv : string * string) (l : list (string * string))
    : list (string * string) :=
  match l with
  | [] => [kv]
  | kv' :: rest =>
      if String.ltb kv.1 kv'.1 then kv :: l else kv' :: insert_item kv rest
  end.

Definition sort_items (l : list (string * string)) : list (string * string) :=
  foldr insert_item [] l.

Definition member (kv : string * string) : string :=
  encode_str kv.1 ++ ": " ++ kv.2.

(** [json.dumps(v, sort_keys=True)] with the default separators. *)
Fixpoint dumps (v : pyval) : string :=
  match v with
  | PyNone => "null"
  | PyBool true => "true"
  | PyBool false => "false"
  | PyInt z => pretty z
  | PyFloat f => encode_float f
  | PyStr s => encode_str s
  | PyList xs => "[" ++ String.concat ", " (map dumps xs) ++ "]"
  | PyDict kvs =>
      "{" ++ String.concat ", "
               (member <$> sort_items (map (λ kv, (kv.1, dumps kv.2)) kvs))
          ++ "}"
  end.

(** [str.encode("utf-8")] on code points below 256. *)
Definition utf8 (s : string) : list Z :=
  mbind (λ c, let n := Z.of_nat (nat_of_ascii c) in
           if (n <? 128)%Z then [n]
           else [Z.lor 0xc0 (Z.shiftr n 6); Z.lor 0x80 (Z.land n 0x3f)])
        (list_ascii_of_string s).

End Json.

(** [config_hash(cfg)], on the dict as Python holds it. *)
Definition config_hash (doc : pyval) : string :=
  substring 0 12 (Sha256.hexdigest (Json.utf8 (Json.dumps doc))).

(** ** Configuration loader *)

(** The configuration document before loading: the fields the loader
    asserts on may be missing.  JSON numbers are idealised as rationals. *)
Record RawQuestion := mkRawQuestion {
  raw_id : option string;
  raw_text : option string;
  raw_weights : option (gmap string Q)
}.

Record RawConfig := mkRawConfig {
  raw_version : option string;
  raw_stages : option (list string);
  raw_answer_scale : option (list Z);
  raw_questions : option (list RawQuestion)
}.

Inductive load_result :=
| Loaded (cfg : Config)
| AssertionError.

(** [{s: float(q["weights"].get(s, 0)) for s in cfg["stages"]}] *)
Definition fill_weights (stgs : list string) (w : gmap string Q) : gmap string Q :=
  foldl (λ d s, <[s := default 0%Q (w !! s)]> d) ∅ stgs.

(** The loop body: [assert "id" in q and "text" in q and "weights" in q],
    then the rewrite of [q["weights"]]; [None] is the failed assertion. *)
Definition load_question (stgs : list string) (q : RawQuestion) : option Question :=
  match raw_id q, raw_text q, raw_weights q with
  | Some i, Some t, Some w => Some (mkQuestion i t (fill_weights stgs w))
  | _, _, _ => None
  end.

Fixpoint load_questions (stgs : list string) (qs : list RawQuestion)
    : option (list Question) :=
  match qs with
  | [] => Some []
  | q :: rest =>
      match load_question stgs q with
      | None => None
      | Some q' => cons q' <$> load_questions stgs rest
      end
  end.

Definition load_assessment_config (raw : RawConfig) : load_result :=
  match raw_stages raw, raw_questions raw with
  | Some stgs, Some qs =>
      match load_questions stgs qs with
      | Some qs' => Loaded (mkConfig (raw_version raw) stgs (raw_answer_scale raw) qs')
      | None => AssertionError
      end
  | _, _ => AssertionError
  end.

(** [ASSESSMENT_CONFIG_JSON], parsed. *)
Definition rawq (i t : string) (w : list (string * Q)) : RawQuestion :=
  mkRawQuestion (Some i) (Some t) (Some (list_to_map w)).

Definition ASSESSMENT_CONFIG : RawConfig :=
  mkRawConfig (Some "spec-v0.5-default") (Some ["FS"; "HM"; "IC"; "SA"])
    (Some [-2; -1; 0; 1; 2]%Z) (Some [
    rawq "Q1" "I feel excited about the possibilities of living abroad"
      [("FS", 1%Q); ("HM", 1%Q); ("IC", 0%Q); ("SA", 1%Q)];
    rawq "Q2" "I feel shut out and excluded"
      [("FS", 1%Q); ("HM", 0%Q); ("IC", 1%Q); ("SA", 0%Q)];
    rawq "Q3" "I feel guilty leaving my family and friends behind"
      [("FS", 1%Q); ("HM", 0%Q); ("IC", 1%Q); ("SA", 0%Q)];
    rawq "Q4" "I feel my social relationships are superficial"
      [("FS", 0%Q); ("HM", 0%Q); ("IC", 1%Q); ("SA", 0%Q)];
    rawq "Q5" "I feel lonely and/or isolated"
      [("FS", 0%Q); ("HM", 0%Q); ("IC", 1%Q); ("SA", 0%Q)];
    rawq "Q6" "I feel I can maintain my cultural identity and embrace the new culture"
      [("FS", 0%Q); ("HM", 1%Q); ("IC", 0%Q); ("SA", 1%Q)];
    rawq "Q7" "I feel I understand the values of the country I am assigned to"
      [("FS", 1%Q); ("HM", 0%Q); ("IC", 0%Q); ("SA", 1%Q)];
    rawq "Q8" "I feel sad"
      [("FS", 1%Q); ("HM", 0%Q); ("IC", 1%Q); ("SA", 0%Q)];
    rawq "Q9" "I feel disappointed in myself"
      [("FS", 1%Q); ("HM", 0%Q); ("IC", 1%Q); ("SA", 0%Q)];
    rawq "Q10" "I feel discouraged in my new assignment/country"
      [("FS", 1%Q); ("HM", 0%Q); ("IC", 1%Q); ("SA", 0%Q)];
    rawq "Q11" "I feel I am integrated and belong"
      [("FS", 0%Q); ("HM", 0%Q); ("IC", 0%Q); ("SA", 1%Q)];
    rawq "Q12" "I feel that I (and/or) my family is thriving"
      [("FS", 0%Q); ("HM", 1%Q); ("IC", 0%Q); ("SA", 1%Q)];
    rawq "Q13" "I fear that I am inadequate to succeed"
      [("FS", 0%Q); ("HM", 0%Q); ("IC", 1%Q); ("SA", 0%Q)];
    rawq "Q14" "I wish I was better prepared for living abroad"
      [("FS", 1%Q); ("HM", 0%Q); ("IC", 1%Q); ("SA", 0%Q)];
    rawq "Q15" "I feel like the company will leverage my/partner's skills upon returning home"
      [("FS", 0%Q); ("HM", 0%Q); ("IC", 0%Q); ("SA", 1%Q)];
    rawq "Q16" "I feel like issues at home are impacting my work performance"
      [("FS", 0%Q); ("HM", 0%Q); ("IC", 1%Q); ("SA", 0%Q)];
    rawq "Q17" "I feel that my company cares about my/our well-being"
      [("FS", 1%Q); ("HM", 1%Q); ("IC", 0%Q); ("SA", 1%Q)];
    rawq "Q18" ("I feel like I am the best " ++ Json.quote ++ "me" ++ Json.quote ++ " I can be")
      [("FS", 1%Q); ("HM", 0%Q); ("IC", 0%Q); ("SA", 1%Q)];
    rawq "Q19" "I have been provided, throughout the assignment, with the tools and resources to adapt in the new country"
      [("FS", 1%Q); ("HM", 0%Q); ("IC", 0%Q); ("SA", 1%Q)];
    rawq "Q20" "I am open to using technology to help me adapt abroad"
      [("FS", 1%Q); ("HM", 1%Q); ("IC", 1%Q); ("SA", 1%Q)]]).

(** ** Fingerprint of a loaded configuration *)

(** The dict behind a [Config]; absent optional keys stay absent. *)
Definition question_doc (q : Question) : pyval :=
  PyDict [("id", PyStr (q_id q));
          ("text", PyStr (q_text q));
          ("weights", PyDict ((λ kw, (kw.1, PyFloat (FFinite kw.2))) <$> map_to_list (q_weights q)))].

Definition config_doc (cfg : Config) : pyval :=
  PyDict (match version cfg with Some v => [("version", PyStr v)] | None => [] end
          ++ [("stages", PyList (PyStr <$> stages cfg))]
          ++ match answer_scale cfg with Some sc => [("answer_scale", PyList (PyInt <$> sc))] | None => [] end
          ++ [("questions", PyList (question_doc <$> questions cfg))]).

(** ** User state manager *)

Record Snapshot := mkSnapshot {
  timestamp : string;
  config_version : string;
  snapshot_config_hash : string;
  coverage : Q;
  stage_probs : gmap string Q;
  stage_scores : gmap string Q
}.

Record UserState := mkUserState {
  signals : gmap string (option Z);
  history : list Snapshot
}.

(** The merge loop: [user_state["signals"][qid] = iv] for every declared
    question whose incoming value passes the three tests. *)
Definition merge_signals (cfg : Config) (incoming : gmap string pyval)
    (sigs : gmap string (option Z)) : gmap string (option Z) :=
  foldl (λ sg q, match accept cfg incoming (q_id q) with
                 | Some iv => <[q_id q := Some iv]> sg
                 | None => sg
                 end) sigs (questions cfg).

(** [update_user_state(cfg, user_state, incoming)].  [now] is the result
    of [datetime.utcnow().isoformat()]; the in-place update of the caller's
    dict is rendered by returning the new state. *)
Definition update_user_state (now : string) (cfg : Config)
    (user_state : option UserState) (incoming : gmap string pyval) : UserState :=
  let st := default (mkUserState ∅ []) user_state in
  let sigs := merge_signals cfg incoming (signals st) in
  let r := assess_stage cfg sigs in
  let snapshot :=
    mkSnapshot now (default "unknown" (version cfg)) (config_hash (config_doc cfg))
               (cov_of r) (probs_of r) (scores_of r) in
  mkUserState sigs (history st ++ [snapshot]).

(** A normalised signal map handed on as [incoming], as [main.chat] does. *)
Definition py_of_signals (m : gmap string (option Z)) : gmap string pyval :=
  (λ o, match o with Some z => PyInt z | None => PyNone end) <$> m.

(** ** The quantities the specification speaks of *)

(** The sum of a sequence of rationals. *)
Definition sumQ (l : list Q) : Q := foldr Qplus 0%Q l.

(** The declared questions that carry a non-null signal, with its value. *)
Definition answers (cfg : Config) (signals : gmap string (option Z)) : list (Question * Z) :=
  omap (λ q, pair q <$> sig_get signals (q_id q)) (questions cfg).

(** The probability the scorer gives a stage, as a function of the stage. *)
Definition prob_fun (cfg : Config) (signals : gmap string (option Z)) (s : string) : Q :=
  let scores := Scorer.raw_scores cfg signals in
  let t := Scorer.vsum (Scorer.clamped (stages cfg) scores) in
  let c := Scorer.py_max (Scorer.item scores s) 0 in
  if negb (Qle_bool t 0) then (c / t)%Q else c.

(** ** Concrete inputs *)

(** The shipped configuration, loaded. *)
Definition default_cfg : Config :=
  match load_assessment_config ASSESSMENT_CONFIG with
  | Loaded cfg => cfg
  | AssertionError => mkConfig None [] None []
  end.

(** Only [Q11] answered, with 2. *)
Definition q11_signals : gmap string (option Z) := {["Q11" := Some 2%Z]}.

(** A stale entry, under an id no question declares, next to [Q11]. *)
Definition q11_stale_signals : gmap string (option Z) :=
  <["Q0-retired" := Some 1%Z]> q11_signals.

(** ** Predicates on signal maps *)

(** The ids of the declared questions. *)
Definition declared_ids (cfg : Config) : list string := q_id <$> questions cfg.

(** A reading of "converts losslessly to an integer" that is generous to
    the code: an [int], a [bool], a float whose value is an integer, or a
    string that [int()] parses. *)
Definition converts_losslessly (v : pyval) (z : Z) : Prop :=
  match v with
  | PyInt n => n = z
  | PyBool b => Z.b2z b = z
  | PyFloat (FFinite q) => (q == inject_Z z)%Q
  | PyStr s => PyInt.of_str s = Some z
  | PyNone | PyFloat (FInf _) | PyFloat FNan | PyList _ | PyDict _ => False
  end.

(** A normalised signal map: every non-null entry sits under a declared id
    and holds a member of the answer scale. *)
Definition normalized_entry (cfg : Config) (k : string) (o : option Z) : Prop :=
  from_option (λ z, k ∈ declared_ids cfg ∧ z ∈ allowed cfg) True o.

Definition normalized (cfg : Config) (n : gmap string (option Z)) : Prop :=
  map_Forall (normalized_entry cfg) n.

(** The invariant of [state.signals]: every stored value is a member of
    the answer scale. *)
Definition in_scale_entry (cfg : Config) (k : string) (o : option Z) : Prop :=
  from_option (λ z, z ∈ allowed cfg) False o.

Definition signals_in_scale (cfg : Config) (m : gmap string (option Z)) : Prop :=
  map_Forall (in_scale_entry cfg) m.

#[global] Instance normalized_entry_dec cfg k o : Decision (normalized_entry cfg k o).
Proof. destruct o; simpl; apply _. Defined.

#[global] Instance in_scale_entry_dec cfg k o : Decision (in_scale_entry cfg k o).
Proof. destruct o; simpl; apply _. Defined.

(** A batch as the model may return it: a fractional value, a numeral in a
    string, an out-of-scale integer, a list, and an id nobody declared. *)
Definition messy_incoming : gmap string pyval :=
  {[ "Q1" := PyFloat (FFinite 1.5); "Q2" := PyStr " -2 "; "Q3" := PyInt 7;
     "Q4" := PyList [PyInt 1]; "Q11" := PyInt 2; "Q99" := PyInt 1 ]}.

Definition half_incoming : gmap string pyval := {[ "Q1" := PyFloat (FFinite 1.5) ]}.

(** A stored state with one answer and no history yet. *)
Definition some_state : UserState := mkUserState {["Q5" := Some (-1)%Z]} [].

(** A document whose second question has no [text]. *)
Definition textless_raw : RawConfig :=
  mkRawConfig (Some "v") (Some ["A"]) None
    (Some [rawq "Q1" "t" [("A", 1%Q)];
           mkRawQuestion (Some "Q2") None (Some {["A" := 1%Q]})]).

(** ** Documents up to key order *)

(** [reordered d d']: [d'] is [d] with the members of some of its dicts, at
    any depth, listed in another order. *)
#[local] Unset Elimination Schemes.
Inductive reordered : pyval → pyval → Prop :=
| reordered_same v : reordered v v
| reordered_list xs ys :
    Forall2 reordered xs ys → reordered (PyList xs) (PyList ys)
| reordered_dict kvs kvs' kvs'' :
    kvs ≡ₚ kvs' →
    Forall2 (λ a b, a.1 = b.1 ∧ reordered a.2 b.2) kvs' kvs'' →
    reordered (PyDict kvs) (PyDict kvs'').
#[local] Set Elimination Schemes.

(** A Python dict holds each key once. *)
Fixpoint distinct_keys (v : pyval) : bool :=
  match v with
  | PyList xs => forallb distinct_keys xs
  | PyDict kvs =>
      bool_decide (NoDup kvs.*1) && forallb (λ kv, distinct_keys kv.2) kvs
  | PyNone | PyBool _ | PyInt _ | PyFloat _ | PyStr _ => true
  end.

(** ** A pair of configurations with one fingerprint *)

(** [cfg] with the weight of question [qid] for [stage] set to [w]. *)
Definition reweigh (cfg : Config) (qid stage : string) (w : Q) : Config :=
  mkConfig (version cfg) (stages cfg) (answer_scale cfg)
    ((λ q, if decide (q_id q = qid)
           then mkQuestion (q_id q) (q_text q) (<[stage := w]> (q_weights q))
           else q) <$> questions cfg).

Definition reweigh_raw (raw : RawConfig) (qid stage : string) (w : Q) : RawConfig :=
  mkRawConfig (raw_version raw) (raw_stages raw) (raw_answer_scale raw)
    (option_map
       (map (λ q, if decide (raw_id q = Some qid)
                  then mkRawQuestion (raw_id q) (raw_text q)
                                     (option_map (insert stage w) (raw_weights q))
                  else q))
       (raw_questions raw)).

Definition heavy_a : Config := reweigh default_cfg "Q20" "SA" 4827767.
Definition heavy_b : Config := reweigh default_cfg "Q20" "SA" 14177228.

(** A small document and the same document with its keys in another order,
    at the top and inside the question. *)
Definition tiny_doc : pyval :=
  PyDict [("version", PyStr "v");
          ("stages", PyList [PyStr "A"; PyStr "B"]);
          ("questions",
           PyList [PyDict [("id", PyStr "Q1"); ("text", PyStr "t");
                           ("weights", PyDict [("A", PyFloat (FFinite 1));
                                               ("B", PyFloat (FFinite 0.5))])]])].

Definition tiny_doc_shuffled : pyval :=
  PyDict [("questions",
           PyList [PyDict [("weights", PyDict [("B", PyFloat (FFinite 0.5));
                                               ("A", PyFloat (FFinite 1))]);
                           ("id", PyStr "Q1"); ("text", PyStr "t")]]);
          ("version", PyStr "v");
          ("stages", PyList [PyStr "A"; PyStr "B"])].

(** * The request layer (src/app/main.py) and the stores *)

(** ** Python helpers shared by the request layer *)

(** Truthiness of a value, as [x or default] and [if not x] test it. *)
Definition py_truthy (v : pyval) : bool :=
  match v with
  | PyNone => false
  | PyBool b => b
  | PyInt z => negb (z =? 0)%Z
  | PyFloat (FFinite q) => negb (Qeq_bool q 0)
  | PyFloat (FInf _) | PyFloat FNan => true
  | PyStr s => negb (String.eqb s EmptyString)
  | PyList xs => match xs with [] => false | _ => true end
  | PyDict kvs => match kvs with [] => false | _ => true end
  end.

(** [d.get(k)] on a dict held as an association list. *)
Fixpoint dict_get (kvs : list (string * pyval)) (k : string) : option pyval :=
  match kvs with
  | [] => None
  | (k', v) :: rest => if String.eqb k' k then Some v else dict_get rest k
  end.

(** [k in d] *)
Definition dict_has (kvs : list (string * pyval)) (k : string) : bool :=
  match dict_get kvs k with Some _ => true | None => false end.

(** [c.isspace()] among code points below 256: what [str.strip()] removes. *)
Definition is_space (c : ascii) : bool :=
  let n := nat_of_ascii c in
  ((9 <=? n) && (n <=? 13) || (28 <=? n) && (n <=? 32) || (n =? 133) || (n =? 160))%nat.

Fixpoint lstrip (s : list ascii) : list ascii :=
  match s with
  | c :: rest => if is_space c then lstrip rest else s
  | [] => []
  end.

(** [s.strip()], on the characters of the string. *)
Definition py_strip (s : list ascii) : list ascii := rev (lstrip (rev (lstrip s))).

(** [l[start:]] for a possibly negative [start]. *)
Definition slice_from {A} (start : Z) (l : list A) : list A :=
  let n := Z.of_nat (length l) in
  let s := if (start <? 0)%Z then Z.max (start + n) 0 else Z.min start n in
  drop (Z.to_nat s) l.

(** ** [_trim_history] *)

(** [isinstance(h, dict) and "role" in h and "content" in h] *)
Definition is_message (h : pyval) : bool :=
  match h with
  | PyDict kvs => dict_has kvs "role" && dict_has kvs "content"
  | _ => false
  end.

(** [_trim_history(history, max_messages)]; [history] is [None] or a list. *)
Definition _trim_history (history : option (list pyval)) (max_messages : Z) : list pyval :=
  match history with
  | None | Some [] => []
  | Some h => slice_from (- max_messages) (filter (λ x, is_message x = true) h)
  end.

(** ** The bracket scanner of [_parse_json_from_model] *)

Module Scan.

(** The loop variables. [start] is -1 when no block is open. *)
Record state := mkState {
  candidate_blocks : list (list ascii);
  depth : Z;
  start : Z;
  in_string : bool;
  escape : bool
}.

Definition init : state := mkState [] 0 (-1) false false.

Definition is_open (c : ascii) : bool := Ascii.eqb c "{" || Ascii.eqb c "[".
Definition is_close (c : ascii) : bool := Ascii.eqb c "}" || Ascii.eqb c "]".
Definition is_backslash (c : ascii) : bool := Ascii.eqb c "\".
Definition is_quote (c : ascii) : bool := Ascii.eqb c (ascii_of_nat 34).

(** [text[a:b]] for [0 <= a]. *)
Definition slice (text : list ascii) (a b : Z) : list ascii :=
  take (Z.to_nat (b - a)) (drop (Z.to_nat a) text).

(** The [if / elif / elif] chain of the loop body. *)
Definition branch (text : list ascii) (i : Z) (c : ascii) (st : state) : state :=
  if is_backslash c then
    mkState (candidate_blocks st) (depth st) (start st) (in_string st) (negb (escape st))
  else if is_quote c && negb (escape st) then
    mkState (candidate_blocks st) (depth st) (start st) (negb (in_string st)) (escape st)
  else if negb (in_string st) then
    if is_open c then
      mkState (candidate_blocks st) (depth st + 1)
              (if (depth st =? 0)%Z then i else start st) (in_string st) (escape st)
    else if is_close c then
      let d := (depth st - 1)%Z in
      if (d =? 0)%Z && negb (start st =? -1)%Z then
        mkState (candidate_blocks st ++ [slice text (start st) (i + 1)]) d (-1)
                (in_string st) (escape st)
      else mkState (candidate_blocks st) d (start st) (in_string st) (escape st)
    else st
  else st.

(** One iteration: the chain, then [if escape and char != '\\': escape = False]. *)
Definition step (text : list ascii) (i : Z) (c : ascii) (st : state) : state :=
  let st := branch text i c st in
  if escape st && negb (is_backslash c) then
    mkState (candidate_blocks st) (depth st) (start st) (in_string st) false
  else st.

(** [for i, char in enumerate(text)], from index [i] on. *)
Fixpoint loop (text : list ascii) (i : Z) (rest : list ascii) (st : state) : state :=
  match rest with
  | [] => st
  | c :: rest' => loop text (i + 1) rest' (step text i c st)
  end.

Definition run (text : list ascii) : state := loop text 0 text init.

End Scan.

(** The candidate blocks the scanner cuts out of a (stripped) reply. *)
Definition scan_blocks (text : string) : list string :=
  string_of_list_ascii <$> Scan.candidate_blocks (Scan.run (list_ascii_of_string text)).

(** ** Rows of the conversation table (src/app/supabase_store.py) *)

(** [(row.get(key) or "").strip()]; [None] stands for the [AttributeError]
    of a row that is no dict or of a truthy value that is no string. *)
Definition row_field (row : pyval) (key : string) : option (list ascii) :=
  match row with
  | PyDict kvs =>
      match dict_get kvs key with
      | None => Some []
      | Some v =>
          if py_truthy v then
            match v with
            | PyStr s => Some (py_strip (list_ascii_of_string s))
            | _ => None
            end
          else Some []
      end
  | _ => None
  end.

(** The loop body of [load_recent_conversation]: [Some (Some m)] appends
    the message [m], [Some None] skips the row, [None] is the exception. *)
Definition row_message (row : pyval) : option (option (string * string)) :=
  match row_field row "role", row_field row "content" with
  | Some role, Some content =>
      let r := string_of_list_ascii role in
      if (String.eqb r "user" || String.eqb r "assistant")
         && match content with [] => false | _ => true end
      then Some (Some (r, string_of_list_ascii content))
      else Some None
  | _, _ => None
  end.

Fixpoint collect_rows (rows : list pyval) : option (list (string * string)) :=
  match rows with
  | [] => Some []
  | row :: rest =>
      match row_message row with
      | None => None
      | Some m =>
          match collect_rows rest with
          | None => None
          | Some out => Some (match m with Some x => x :: out | None => out end)
          end
      end
  end.

(** What [load_recent_conversation] makes of the decoded response body
    [rows]: [for row in reversed(rows or [])].  A truthy body that is no
    list makes the loop raise. *)
Definition conversation_of_rows (rows : pyval) : option (list (string * string)) :=
  if py_truthy rows then
    match rows with
    | PyList xs => collect_rows (rev xs)
    | _ => None
    end
  else Some [].

(** ** The [/chat] handler on the in-memory store *)

Record ChatRequest := mkChatRequest {
  user_id : string;
  message : string;
  req_history : option (list pyval)
}.

Record ChatResponse := mkChatResponse {
  assistant_message : string;
  resp_stage_probs : gmap string Q;
  confidence : string;
  resp_coverage : Q;
  resp_signals : gmap string (option Z);
  resp_config_version : string
}.

(** [f"journey:user:{req.user_id}"] *)
Definition state_key (uid : string) : string := "journey:user:" ++ uid.

(** [any(v is not None for v in clean_signals.values())] *)
Definition any_signal (clean : gmap string (option Z)) : bool :=
  existsb (λ kv : string * option Z, bool_decide (is_Some kv.2)) (map_to_list clean).

(** The handler from "Normalize + update state" on, for a reply
    [assistant_message] and a raw batch [signals_raw]; the store is the
    dict of [InMemoryStore].  The prompt and the message list built before
    are used by nothing once the model call is switched off. *)
Definition chat_core (now : string) (cfg : Config) (store : gmap string UserState)
    (req : ChatRequest) (reply : string) (signals_raw : gmap string pyval)
    : ChatResponse * gmap string UserState :=
  let key := state_key (user_id req) in
  let state := default (mkUserState ∅ []) (store !! key) in
  let clean_signals := normalize_signals cfg signals_raw in
  let state :=
    if any_signal clean_signals
    then update_user_state now cfg (Some state) (py_of_signals clean_signals)
    else state in
  let store := <[key := state]> store in
  let r := assess_stage cfg (signals state) in
  (mkChatResponse reply (probs_of r) (conf_of r) (cov_of r) clean_signals
                  (default "unknown" (version cfg)),
   store).

(** [chat(req)] as it stands: the reply is the user's message and the
    batch is [{}]. *)
Definition chat (now : string) (cfg : Config) (store : gmap string UserState)
    (req : ChatRequest) : ChatResponse * gmap string UserState :=
  chat_core now cfg store req (message req) ∅.

(** ** Several turns and reloading, for the statements below *)

(** [update_user_state] applied turn after turn; a turn is the clock
    reading and the incoming batch. *)
Definition run_turns (cfg : Config) (st : UserState) (turns : list (string * gmap string pyval))
    : UserState :=
  foldl (λ st t, update_user_state t.1 cfg (Some st) t.2) st turns.

(** The loaded config seen again as a document. *)
Definition raw_of_config (cfg : Config) : RawConfig :=
  mkRawConfig (version cfg) (Some (stages cfg)) (answer_scale cfg)
    (Some ((λ q, mkRawQuestion (Some (q_id q)) (Some (q_text q)) (Some (q_weights q)))
           <$> questions cfg)).

Definition is_hex (c : ascii) : bool :=
  let n := nat_of_ascii c in
  ((48 <=? n) && (n <=? 57) || (97 <=? n) && (n <=? 102))%nat.

(** Inputs for the witnesses. *)
Definition sample_history : list pyval :=
  [PyDict [("role", PyStr "user"); ("content", PyStr "hi")];
   PyStr "noise";
   PyDict [("role", PyStr "assistant")];
   PyDict [("content", PyStr "there"); ("role", PyStr "assistant")]].

Definition sample_turns : list (string * gmap string pyval) :=
  [("t1", messy_incoming); ("t2", half_incoming); ("t3", ∅)].

Definition sample_rows : list pyval :=
  [PyDict [("role", PyStr "assistant"); ("content", PyStr " fine ")];
   PyDict [("role", PyStr "system"); ("content", PyStr "x")];
   PyDict [("role", PyStr "user"); ("content", PyStr "hello")]].

(** The value the last turn that was accepted for question [k] gave it. *)
Definition last_accepted (cfg : Config) (k : string)
    (turns : list (string * gmap string pyval)) : option Z :=
  foldl (λ acc t, match accept cfg t.2 k with Some z => Some z | None => acc end)
        None turns.

(** A span [(s, e)] of the text that starts with an opening and ends with
    a closing bracket. *)
Definition bracket_span (text : list ascii) (se : Z * Z) : Prop :=
  (0 <= se.1)%Z ∧ (se.1 <= se.2)%Z ∧ (se.2 < Z.of_nat (length text))%Z
  ∧ (∃ c, text !! Z.to_nat se.1 = Some c ∧ Scan.is_open c = true)
  ∧ (∃ c, text !! Z.to_nat se.2 = Some c ∧ Scan.is_close c = true).

(** Spans that follow one another without overlap. *)
Definition before (a b : Z * Z) : Prop := (a.2 < b.1)%Z.

Definition sample_reply : string :=
  "Sure. {" ++ Json.quote ++ "a" ++ Json.quote ++ ": [1, 2]} and [3]".

(** What holds of the loop variables before the character at index [i]. *)
Definition scan_inv (text : list ascii) (i : Z) (st : Scan.state) : Prop :=
  (Scan.start st = (-1)%Z
   ∨ (0 <= Scan.start st)%Z ∧ (Scan.start st < i)%Z
     ∧ ∃ c, text !! Z.to_nat (Scan.start st) = Some c ∧ Scan.is_open c = true)
  ∧ ∃ spans,
      Scan.candidate_blocks st = (λ se, Scan.slice text se.1 (se.2 + 1)) <$> spans
      ∧ Forall (bracket_span text) spans
      ∧ StronglySorted before spans
      ∧ Forall (λ se, (se.2 < i)%Z) spans
      ∧ (Scan.start st ≠ (-1)%Z → Forall (λ se, (se.2 < Scan.start st)%Z) spans).

(** Inputs for the handler witnesses. *)
Definition sample_store : gmap string UserState :=
  {[ state_key "ann" := some_state ]}.

Definition ann_request : ChatRequest := mkChatRequest "ann" "hello" None.

(** A string of lowercase hexadecimal digits. *)
Fixpoint hex_string (s : string) : bool :=
  match s with
  | EmptyString => true
  | String c rest => is_hex c && hex_string rest
  end.

(** No white space at either end. *)
Definition stripped (l : list ascii) : Prop :=
  (∀ c rest, l = c :: rest → is_space c = false)
  ∧ (∀ c front, l = (front ++ [c])%list → is_space c = false).

(** * The scorer and the loader in binary64

    What follows embeds [assess_stage] and [load_assessment_config] with
    Python's [float] as it is: an IEEE 754 binary64 value.  The values are
    the [spec_float] of the Standard Library and the operations its
    [SFadd], [SFmul], [SFdiv] and [SFcompare] at precision 53 and maximal
    exponent 1024, which round to nearest, ties to even, overflow to an
    infinity and have signed zeros and one NaN.  Statements about the
    numbers [assess_stage] returns (scores, probabilities, confidence) are
    made on this embedding; the embedding over [Q] above serves the
    statements that do not depend on rounding. *)

Module B64.

Definition float : Type := spec_float.
Definition prec : Z := 53.
Definition emax : Z := 1024.

(** [0.0] *)
Definition zero : float := S754_zero false.

(** [a + b], [a * b], [a / b] on floats *)
Definition add : float → float → float := SFadd prec emax.
Definition mul : float → float → float := SFmul prec emax.
Definition div : float → float → float := SFdiv prec emax.

(** [a > b] and [a >= b]: false as soon as one side is NaN *)
Definition gt (a b : float) : bool := SFltb b a.
Definition ge (a b : float) : bool := SFleb b a.

Definition is_nan (x : float) : bool :=
  match x with S754_nan => true | _ => false end.

(** [0.0] or [-0.0] *)
Definition is_zero (x : float) : bool :=
  match x with S754_zero _ => true | _ => false end.

(** An [int] as the exact value it has, before any rounding. *)
Definition exact (v : Z) : float :=
  match v with
  | Z0 => zero
  | Zpos p => S754_finite false p 0
  | Zneg p => S754_finite true p 0
  end.

(** The binary64 value nearest to an [int]. *)
Definition round_int (v : Z) : float := binary_normalize prec emax v 0 false.

(** [float(v)] on an [int]: the nearest binary64 value, and
    [OverflowError] ([None]) when that is beyond the finite range. *)
Definition float_of_int (v : Z) : option float :=
  match round_int v with
  | S754_infinity _ => None
  | f => Some f
  end.

(** [a / b] on two [int]s with [b > 0]: the correctly rounded quotient. *)
Definition int_truediv (a b : Z) : float := div (exact a) (exact b).

(** The value of a decimal literal [n/d], as the parser rounds it. *)
Definition literal (n d : Z) : float := div (exact n) (exact d).

(** The constants of [assess_stage]: [0.6], [0.4], [0.75], [0.45]. *)
Definition c0_6 : float := Eval vm_compute in literal 6 10.
Definition c0_4 : float := Eval vm_compute in literal 4 10.
Definition c0_75 : float := Eval vm_compute in literal 75 100.
Definition c0_45 : float := Eval vm_compute in literal 45 100.

(** ** Dicts in insertion order

    [d[k] = v] keeps the place of a key that is there and appends a new
    one; [d.values()] lists the values in that order. *)
Fixpoint od_get {V} (d : list (string * V)) (k : string) : option V :=
  match d with
  | [] => None
  | (k', v) :: rest => if decide (k' = k) then Some v else od_get rest k
  end.

Fixpoint od_set {V} (k : string) (v : V) (d : list (string * V)) : list (string * V) :=
  match d with
  | [] => [(k, v)]
  | (k', v') :: rest =>
      if decide (k' = k) then (k, v) :: rest else (k', v') :: od_set k v rest
  end.

(** ** The loaded configuration *)

(** One entry of [cfg["questions"]] after loading: the weights are floats. *)
Record Question := mkQuestion {
  qid : string;
  qtext : string;
  qweights : gmap string float
}.

Record Config := mkConfig {
  version : option string;
  stages : list string;
  answer_scale : option (list Z);
  questions : list Question
}.

(** [q["weights"].get(s, 0.0)] *)
Definition weight (q : Question) (s : string) : float :=
  default zero (qweights q !! s).

(** ** [assess_stage] *)

(** [scores[s]] for a key the dict holds. *)
Definition item (scores : list (string * float)) (s : string) : float :=
  default zero (od_get scores s).

(** [{s: 0.0 for s in stages}] *)
Definition init_scores (stgs : list string) : list (string * float) :=
  foldl (λ d s, od_set s zero d) [] stgs.

(** The inner loop: [for s in stages: scores[s] += q["weights"].get(s, 0.0) * float(v)].
    [float(v)] is evaluated in every round, so it raises only when there
    is a stage. *)
Definition add_answer (stgs : list string) (q : Question) (v : Z)
    (scores : list (string * float)) : option (list (string * float)) :=
  foldl (λ acc s,
           d ← acc;
           fv ← float_of_int v;
           Some (od_set s (add (item d s) (mul (weight q s) fv)) d))
        (Some scores) stgs.

(** The outer loop body, with its [continue] on a null signal. *)
Definition score_step (stgs : list string) (signals : gmap string (option Z))
    (acc : option (list (string * float))) (q : Question)
    : option (list (string * float)) :=
  d ← acc;
  match sig_get signals (qid q) with
  | None => Some d
  | Some v => add_answer stgs q v d
  end.

Definition raw_scores (cfg : Config) (signals : gmap string (option Z))
    : option (list (string * float)) :=
  foldl (score_step (stages cfg) signals) (Some (init_scores (stages cfg))) (questions cfg).

(** Python's [max(a, b)]: [b] only when [b > a]; a NaN on either side
    leaves [a]. *)
Definition py_max (a b : float) : float := if gt b a then b else a.

(** [vec = np.array([max(scores[s], 0.0) for s in stages], dtype=float)] *)
Definition clamped (stgs : list string) (scores : list (string * float)) : list float :=
  (λ s, py_max (item scores s) zero) <$> stgs.

(** [if vec.sum() > 0: vec = vec / vec.sum()].  [np_sum] is numpy's
    reduction of a float64 vector by [+]: which entries it adds first
    depends on the length of the vector, and nothing below depends on
    it. *)
Definition normalise (np_sum : list float → float) (vec : list float) : list float :=
  if gt (np_sum vec) zero then (λ x, div x (np_sum vec)) <$> vec else vec.

(** The reduction from left to right, starting from [0.0]: numpy's for a
    vector of fewer than eight entries. *)
Definition seq_sum (vec : list float) : float := foldl add zero vec.

(** [{stages[i]: float(vec[i]) for i in range(len(stages))}] *)
Definition to_dict (stgs : list string) (vec : list float) : list (string * float) :=
  foldl (λ d kv, od_set kv.1 kv.2 d) [] (zip stgs vec).

(** [sum(1 for q in cfg["questions"] if signals.get(q["id"], None) is not None)] *)
Definition answered (cfg : Config) (signals : gmap string (option Z)) : nat :=
  length (filter (λ q, is_Some (sig_get signals (qid q))) (questions cfg)).

(** [... / max(len(cfg["questions"]), 1)] *)
Definition coverage_of (cfg : Config) (signals : gmap string (option Z)) : float :=
  int_truediv (Z.of_nat (answered cfg signals))
              (Z.of_nat (Nat.max (length (questions cfg)) 1)).

(** [max(xs)] on a sequence: the first entry, replaced by each later one
    that is [>] the entry held. *)
Definition max_of (xs : list float) : float :=
  match xs with
  | [] => zero
  | x :: rest => foldl py_max x rest
  end.

(** [max(probs.values()) if probs else 0.0] *)
Definition dominance_of (probs : list (string * float)) : float :=
  max_of (probs.*2).

(** [conf_score = 0.6 * dominance + 0.4 * coverage] *)
Definition conf_score_of (dominance coverage : float) : float :=
  add (mul c0_6 dominance) (mul c0_4 coverage).

Definition conf_label (conf_score : float) : string :=
  if ge conf_score c0_75 then "high"
  else if ge conf_score c0_45 then "medium"
  else "low".

(** What [assess_stage] returns: [(probs, conf, scores, coverage)]. *)
Record Assessment := mkAssessment {
  probs : list (string * float);
  conf : string;
  scores : list (string * float);
  coverage : float
}.

(** [assess_stage(cfg, signals)]; [None] is the [OverflowError] of
    [float(v)]. *)
Definition assess_stage (np_sum : list float → float) (cfg : Config)
    (signals : gmap string (option Z)) : option Assessment :=
  sc ← raw_scores cfg signals;
  let stgs := stages cfg in
  let vec := normalise np_sum (clamped stgs sc) in
  let pr := to_dict stgs vec in
  let cov := coverage_of cfg signals in
  let dominance := dominance_of pr in
  Some (mkAssessment pr (conf_label (conf_score_of dominance cov)) sc cov).

(** ** [load_assessment_config] *)

(** A JSON number as [json.loads] returns it: an [int] of any size or a
    [float]. *)
Inductive num :=
| NInt (z : Z)
| NFloat (f : float).

(** [float(x)] on a number *)
Definition to_float (x : num) : option float :=
  match x with
  | NInt z => float_of_int z
  | NFloat f => Some f
  end.

(** The document before loading; the fields the loader asserts on may be
    missing. *)
Record RawQuestion := mkRawQuestion {
  raw_id : option string;
  raw_text : option string;
  raw_weights : option (gmap string num)
}.

Record RawConfig := mkRawConfig {
  raw_version : option string;
  raw_stages : option (list string);
  raw_answer_scale : option (list Z);
  raw_questions : option (list RawQuestion)
}.

(** How a step of the loader ends. *)
Inductive outcome (A : Type) :=
| Done (a : A)
| AssertionError
| OverflowError.
Arguments Done {A} a.
Arguments AssertionError {A}.
Arguments OverflowError {A}.

(** [{s: float(q["weights"].get(s, 0)) for s in cfg["stages"]}]: the
    stages are visited in order and the first [float] that fails ends the
    comprehension. *)
Definition fill_step (w : gmap string num) (acc : option (gmap string float)) (s : string)
    : option (gmap string float) :=
  d ← acc;
  f ← to_float (default (NInt 0) (w !! s));
  Some (<[s := f]> d).

Definition fill_weights (stgs : list string) (w : gmap string num) : option (gmap string float) :=
  foldl (fill_step w) (Some ∅) stgs.

(** The loop body: the assertion, then the rewrite of [q["weights"]]. *)
Definition load_question (stgs : list string) (q : RawQuestion) : outcome Question :=
  match raw_id q, raw_text q, raw_weights q with
  | Some i, Some t, Some w =>
      match fill_weights stgs w with
      | Some fw => Done (mkQuestion i t fw)
      | None => OverflowError
      end
  | _, _, _ => AssertionError
  end.

(** The loop: the first question that fails decides how. *)
Fixpoint load_questions (stgs : list string) (qs : list RawQuestion)
    : outcome (list Question) :=
  match qs with
  | [] => Done []
  | q :: rest =>
      match load_question stgs q with
      | Done q' =>
          match load_questions stgs rest with
          | Done qs' => Done (q' :: qs')
          | AssertionError => AssertionError
          | OverflowError => OverflowError
          end
      | AssertionError => AssertionError
      | OverflowError => OverflowError
      end
  end.

Definition load_assessment_config (raw : RawConfig) : outcome Config :=
  match raw_stages raw, raw_questions raw with
  | Some stgs, Some qs =>
      match load_questions stgs qs with
      | Done qs' => Done (mkConfig (raw_version raw) stgs (raw_answer_scale raw) qs')
      | AssertionError => AssertionError
      | OverflowError => OverflowError
      end
  | _, _ => AssertionError
  end.

(** ** The quantities the statements speak of *)

(** The declared questions that carry a non-null signal, with its value. *)
Definition answers (cfg : Config) (signals : gmap string (option Z)) : list (Question * Z) :=
  omap (λ q, pair q <$> sig_get signals (qid q)) (questions cfg).

(** The binary64 sum, accumulated from [0.0] in question order over those
    questions, of the binary64 products [weight(question, s) * float(v)]. *)
Definition raw_score_spec (cfg : Config) (signals : gmap string (option Z)) (s : string) : float :=
  foldl (λ acc qv, add acc (mul (weight qv.1 s) (round_int qv.2))) zero (answers cfg signals).

(** Every answer converts to a float. *)
Definition convertible (cfg : Config) (signals : gmap string (option Z)) : Prop :=
  Forall (λ qv : Question * Z, is_Some (float_of_int qv.2)) (answers cfg signals).

(** Below zero: a negative number or minus infinity. *)
Definition negative (x : float) : bool :=
  match x with
  | S754_finite true _ _ | S754_infinity true => true
  | _ => false
  end.

(** A list without its repetitions, each entry where it is first seen. *)
Definition first_seen (l : list string) : list string :=
  foldl (λ acc s, if decide (s ∈ acc) then acc else (acc ++ [s])%list) [] l.






(** The inner loop once [float(v)] has given [fv]. *)
Definition add_rounded (stgs : list string) (q : Question) (fv : float)
    (d : list (string * float)) : list (string * float) :=
  foldl (λ d s, od_set s (add (item d s) (mul (weight q s) fv)) d) d stgs.

End B64.

(** ** Inputs for the statements on binary64 *)

(** A number of the document over [Q], as [json.loads] reads it. *)
Definition num_of_Q (q : Q) : B64.num :=
  if (Qden q =? 1)%positive then B64.NInt (Qnum q)
  else B64.NFloat (B64.literal (Qnum q) (Z.pos (Qden q))).

Definition b64_question (q : RawQuestion) : B64.RawQuestion :=
  B64.mkRawQuestion (raw_id q) (raw_text q) (fmap (M := gmap string) num_of_Q <$> raw_weights q).

Definition b64_document (raw : RawConfig) : B64.RawConfig :=
  B64.mkRawConfig (raw_version raw) (raw_stages raw) (raw_answer_scale raw)
    (option_map (map b64_question) (raw_questions raw)).

Definition b64_loaded (raw : B64.RawConfig) : B64.Config :=
  match B64.load_assessment_config raw with
  | B64.Done cfg => cfg
  | _ => B64.mkConfig None [] None []
  end.

(** The shipped configuration, loaded. *)
Definition shipped : B64.Config := b64_loaded (b64_document ASSESSMENT_CONFIG).

(** One stage, one question per weight. *)
Definition one_stage (ws : list B64.num) : B64.RawConfig :=
  B64.mkRawConfig None (Some ["A"]) None
    (Some (imap (λ i w, B64.mkRawQuestion (Some ("Q" ++ pretty (S i))) (Some "t")
                                          (Some {["A" := w]})) ws)).

Definition all_answered (n : nat) (v : Z) : gmap string (option Z) :=
  list_to_map ((λ i, ("Q" ++ pretty (S i), Some v)) <$> seq 0 n).

(** Weights 0.1, 0.2 and -0.3. *)
Definition drift_cfg : B64.Config :=
  b64_loaded (one_stage [B64.NFloat (B64.literal 1 10); B64.NFloat (B64.literal 2 10);
                         B64.NFloat (B64.literal (-3) 10)]).

(** Weights 2^53, 1 and -2^53. *)
Definition absorb_cfg : B64.Config :=
  b64_loaded (one_stage [B64.NInt (2 ^ 53); B64.NInt 1; B64.NInt (- 2 ^ 53)]).

(** One stage code listed twice. *)
Definition twice_cfg : B64.Config :=
  b64_loaded (B64.mkRawConfig (Some "dup") (Some ["A"; "A"]) None
                (Some [B64.mkRawQuestion (Some "Q1") (Some "t") (Some {["A" := B64.NInt 1]})])).

(** Two stages with the weight 1e308. *)
Definition huge_cfg : B64.Config :=
  b64_loaded (B64.mkRawConfig None (Some ["A"; "B"]) None
                (Some [B64.mkRawQuestion (Some "Q1") (Some "t")
                         (Some {["A" := B64.NFloat (B64.literal (10 ^ 308) 1);
                                 "B" := B64.NFloat (B64.literal (10 ^ 308) 1)]})])).

(** Two questions whose weights 1e308 and -1e308 meet on stage B. *)
Definition clash_cfg : B64.Config :=
  b64_loaded (B64.mkRawConfig None (Some ["A"; "B"]) None
                (Some [B64.mkRawQuestion (Some "Q1") (Some "t")
                         (Some {["A" := B64.NInt 1;
                                 "B" := B64.NFloat (B64.literal (10 ^ 308) 1)]});
                       B64.mkRawQuestion (Some "Q2") (Some "t")
                         (Some {["A" := B64.NInt 0;
                                 "B" := B64.NFloat (B64.literal (- 10 ^ 308) 1)]})])).


(** Twelve answers on the shipped configuration. *)
Definition twelve_signals : gmap string (option Z) :=
  list_to_map [("Q1", Some 2); ("Q2", Some 1); ("Q3", Some (-2)); ("Q4", Some 1);
               ("Q5", Some (-1)); ("Q9", Some 2); ("Q10", Some 2); ("Q11", Some 1);
               ("Q13", Some (-2)); ("Q15", Some 1); ("Q16", Some 2); ("Q17", Some 2)]%Z.

(** What [assess_stage] returns on the shipped configuration with only
    [Q11] answered, with 2. *)
Definition shipped_q11 : B64.Assessment :=
  Eval vm_compute in
    default (B64.mkAssessment [] EmptyString [] B64.zero)
            (B64.assess_stage B64.seq_sum shipped q11_signals).

(** Eight questions that weigh 1 on every stage, three of them answered. *)
Definition eight_questions (stgs : list string) : B64.Config :=
  B64.mkConfig None stgs None
    ((λ i, B64.mkQuestion ("Q" ++ pretty (S i)) "t"
             (list_to_map ((λ s, (s, B64.round_int 1)) <$> stgs))) <$> seq 0 8).

Definition three_answers : gmap string (option Z) :=
  {["Q1" := Some 1%Z; "Q2" := Some 2%Z; "Q3" := Some 1%Z]}.

(** * Properties *)

Ltac by_compute := apply (bool_decide_unpack _); vm_compute; exact I.

(** ** Folds that fill a dict *)

Section FillDict.
Context {V : Type}.

Lemma foldl_insert_lookup (f : string → V) (l : list string) (d : gmap string V) (k : string) :
  foldl (λ d s, <[s := f s]> d) d l !! k
  = if decide (k ∈ l) then Some (f k) else d !! k.
Proof.
  revert d. induction l as [|a l IH]; intros d; cbn [foldl].
  - rewrite decide_False; [done | apply not_elem_of_nil].
  - rewrite IH. destruct (decide (k ∈ l)) as [Hin|Hnin].
    + rewrite decide_True; [done | by right].
    + destruct (decide (k = a)) as [->|Hne].
      * rewrite lookup_insert_eq, decide_True; [done | by left].
      * rewrite lookup_insert_ne by done.
        rewrite decide_False; [done|]. by intros [?|?]%elem_of_cons.
Qed.

Lemma foldl_insert_pairs (f : string → V) (l : list string) (d : gmap string V) :
  foldl (λ d (kv : string * V), <[kv.1 := kv.2]> d) d (zip l (f <$> l))
  = foldl (λ d s, <[s := f s]> d) d l.
Proof. revert d. induction l as [|a l IH]; intros d; simpl; [done | apply IH]. Qed.
End FillDict.

(** ** Rational arithmetic used by the scorer *)

Lemma foldl_Qplus_acc (l : list Q) (a : Q) : (foldl Qplus a l == a + sumQ l)%Q.
Proof.
  revert a. induction l as [|x l IH]; intros a; simpl.
  - ring.
  - rewrite IH. ring.
Qed.

Lemma vsum_sumQ (l : list Q) : (Scorer.vsum l == sumQ l)%Q.
Proof. unfold Scorer.vsum. rewrite foldl_Qplus_acc. ring. Qed.

Lemma sumQ_nonneg (l : list Q) : Forall (λ x, (0 <= x)%Q) l → (0 <= sumQ l)%Q.
Proof.
  induction 1 as [|x l Hx _ IH]; simpl; [apply Qle_refl|].
  replace 0%Q with (0 + 0)%Q by reflexivity. by apply Qplus_le_compat.
Qed.

Lemma py_max_ge (a b : Q) : (a <= Scorer.py_max a b)%Q ∧ (b <= Scorer.py_max a b)%Q.
Proof.
  unfold Scorer.py_max. destruct (Qle_bool b a) eqn:E.
  - apply Qle_bool_iff in E. split; [apply Qle_refl | exact E].
  - split; [|apply Qle_refl].
    destruct (Qlt_le_dec a b) as [H|H]; [by apply Qlt_le_weak|].
    apply Qle_bool_iff in H. congruence.
Qed.

Lemma py_max_cases (a b : Q) : Scorer.py_max a b = a ∨ Scorer.py_max a b = b.
Proof. unfold Scorer.py_max. destruct (Qle_bool b a); auto. Qed.

(** ** Maximum of a sequence *)

Lemma foldl_py_max_in (l : list Q) (a : Q) :
  foldl Scorer.py_max a l = a ∨ foldl Scorer.py_max a l ∈ l.
Proof.
  revert a. induction l as [|x l IH]; intros a; simpl; [by left|].
  destruct (IH (Scorer.py_max a x)) as [H|H].
  - rewrite H. destruct (py_max_cases a x) as [->| ->]; [by left | right; by left].
  - right. by right.
Qed.

Lemma max_of_in (l : list Q) : l ≠ [] → Scorer.max_of l ∈ l.
Proof.
  destruct l as [|a l]; [done|]. intros _. simpl.
  destruct (foldl_py_max_in l a) as [->|H]; [by left | by right].
Qed.

(** ** The accumulated scores *)

Lemma init_scores_lookup (stgs : list string) (k : string) :
  Scorer.init_scores stgs !! k = if decide (k ∈ stgs) then Some 0%Q else None.
Proof.
  unfold Scorer.init_scores.
  rewrite (foldl_insert_lookup (λ _, 0%Q)). by rewrite lookup_empty.
Qed.

Lemma sumQ_fmap_ext {A} (f g : A → Q) (l : list A) :
  (∀ x, x ∈ l → (f x == g x)%Q) → (sumQ (f <$> l) == sumQ (g <$> l))%Q.
Proof.
  induction l as [|a l IH]; intros H; simpl; [reflexivity|].
  rewrite (H a) by (by left). rewrite IH; [reflexivity|].
  intros x Hx. apply H. by right.
Qed.


(** ** The probabilities *)

Lemma normalise_clamped (cfg : Config) (signals : gmap string (option Z)) :
  Scorer.normalise (Scorer.clamped (stages cfg) (Scorer.raw_scores cfg signals))
  = prob_fun cfg signals <$> stages cfg.
Proof.
  unfold Scorer.normalise, prob_fun.
  destruct (negb _); [|done].
  unfold Scorer.clamped at 2. by rewrite <- list_fmap_compose.
Qed.

Lemma probs_lookup (cfg : Config) (signals : gmap string (option Z)) (s : string) :
  probs_of (assess_stage cfg signals) !! s
  = if decide (s ∈ stages cfg) then Some (prob_fun cfg signals s) else None.
Proof.
  unfold assess_stage, probs_of. cbn [fst]. rewrite normalise_clamped.
  unfold Scorer.to_dict. rewrite foldl_insert_pairs, foldl_insert_lookup.
  by rewrite lookup_empty.
Qed.

Lemma clamped_nonneg (stgs : list string) (scores : gmap string Q) :
  Forall (λ x, (0 <= x)%Q) (Scorer.clamped stgs scores).
Proof.
  unfold Scorer.clamped. apply Forall_fmap, Forall_forall. intros s _.
  apply py_max_ge.
Qed.

Lemma sumQ_elem_le (l : list Q) (x : Q) :
  Forall (λ y, (0 <= y)%Q) l → x ∈ l → (x <= sumQ l)%Q.
Proof.
  induction 1 as [|y l Hy Hl IH]; [by intros ?%elem_of_nil|].
  pose proof (sumQ_nonneg l Hl).
  intros [->|Hin]%elem_of_cons; simpl; [lra|].
  specialize (IH Hin). lra.
Qed.

Lemma prob_fun_bounds (cfg : Config) (signals : gmap string (option Z)) (s : string) :
  s ∈ stages cfg → (0 <= prob_fun cfg signals s <= 1)%Q.
Proof.
  intros Hs. unfold prob_fun.
  set (scores := Scorer.raw_scores cfg signals).
  set (vec := Scorer.clamped (stages cfg) scores).
  set (c := Scorer.py_max (Scorer.item scores s) 0).
  assert (Hc0 : (0 <= c)%Q) by apply py_max_ge.
  assert (Hin : c ∈ vec).
  { unfold vec, Scorer.clamped. apply list_elem_of_fmap. by exists s. }
  pose proof (clamped_nonneg (stages cfg) scores) as Hnn. fold vec in Hnn.
  pose proof (sumQ_elem_le vec c Hnn Hin) as Hle.
  pose proof (vsum_sumQ vec) as Hv.
  destruct (Qle_bool (Scorer.vsum vec) 0) eqn:E; simpl.
  - apply Qle_bool_iff in E. split; [done|]. lra.
  - assert (Ht : (0 < Scorer.vsum vec)%Q).
    { destruct (Qlt_le_dec 0 (Scorer.vsum vec)) as [H|H]; [done|].
      apply Qle_bool_iff in H. congruence. }
    split.
    + apply Qle_shift_div_l; [done|]. lra.
    + apply Qle_shift_div_r; [done|]. lra.
Qed.

Lemma sumQ_zeros {A} (l : list A) : (sumQ ((λ _, 0%Q) <$> l) == 0)%Q.
Proof. induction l as [|a l IH]; simpl; [reflexivity|]. rewrite IH. ring. Qed.

(** ** Coverage *)



Lemma answered_mono (cfg : Config) (s1 s2 : gmap string (option Z)) :
  (∀ q, q ∈ questions cfg →
        is_Some (sig_get s1 (q_id q)) → is_Some (sig_get s2 (q_id q))) →
  (Scorer.answered cfg s1 ≤ Scorer.answered cfg s2)%nat.
Proof.
  unfold Scorer.answered. induction (questions cfg) as [|q qs IH]; intros H; [done|].
  rewrite !filter_cons.
  assert (IH' := IH (λ q' Hq', H q' (list_elem_of_further _ _ _ Hq'))).
  destruct (decide (is_Some (sig_get s1 (q_id q)))) as [H1|H1].
  - rewrite decide_True by (apply H; [by left | done]). simpl. lia.
  - case_decide; simpl; lia.
Qed.

Lemma answered_none (cfg : Config) (signals : gmap string (option Z)) :
  (∀ q, q ∈ questions cfg → sig_get signals (q_id q) = None) →
  Scorer.answered cfg signals = 0%nat.
Proof.
  unfold Scorer.answered. induction (questions cfg) as [|q qs IH]; intros H; [done|].
  rewrite filter_cons_False.
  - apply IH. intros q' Hq'. apply H. by right.
  - rewrite (H q) by (by left). by intros [? ?].
Qed.


Lemma nat_ratio_le (a b n : nat) :
  (0 < n)%nat → (a ≤ b)%nat →
  (inject_Z (Z.of_nat a) / inject_Z (Z.of_nat n)
   <= inject_Z (Z.of_nat b) / inject_Z (Z.of_nat n))%Q.
Proof.
  intros Hn Hab.
  assert (Hpos : (0 < inject_Z (Z.of_nat n))%Q).
  { replace 0%Q with (inject_Z 0) by reflexivity. rewrite <- Zlt_Qlt. lia. }
  apply Qle_shift_div_l; [done|].
  unfold Qdiv. rewrite <- Qmult_assoc, (Qmult_comm (/ _)), Qmult_inv_r, Qmult_1_r by lra.
  rewrite <- Zle_Qle. lia.
Qed.



(** ** Confidence *)

Lemma Qle_bool_false_lt (a b : Q) : Qle_bool a b = false ↔ (b < a)%Q.
Proof.
  split.
  - intros E. destruct (Qlt_le_dec b a) as [H|H]; [done|].
    apply Qle_bool_iff in H. congruence.
  - intros H. destruct (Qle_bool a b) eqn:E; [|done].
    apply Qle_bool_iff in E. lra.
Qed.


Lemma conf_label_low (x : Q) : Scorer.conf_label x = "low" ↔ (x < 0.45)%Q.
Proof.
  unfold Scorer.conf_label. destruct (Qle_bool 0.75 x) eqn:E1.
  - apply Qle_bool_iff in E1. split; [discriminate | intros; lra].
  - destruct (Qle_bool 0.45 x) eqn:E2.
    + apply Qle_bool_iff in E2. split; [discriminate | intros; lra].
    + apply Qle_bool_false_lt in E2. done.
Qed.

(** ** Undeclared signal entries *)

Lemma foldl_ext_in {A B} (f g : A → B → A) (l : list B) (a : A) :
  (∀ a x, x ∈ l → f a x = g a x) → foldl f a l = foldl g a l.
Proof.
  revert a. induction l as [|x l IH]; intros a H; [done|]. cbn [foldl].
  rewrite (H a x) by (by left). apply IH. intros a' x' Hx'. apply H. by right.
Qed.

Lemma assess_stage_sig_get (cfg : Config) (s1 s2 : gmap string (option Z)) :
  (∀ q, q ∈ questions cfg → sig_get s1 (q_id q) = sig_get s2 (q_id q)) →
  assess_stage cfg s1 = assess_stage cfg s2.
Proof.
  intros H.
  assert (Hs : Scorer.raw_scores cfg s1 = Scorer.raw_scores cfg s2).
  { unfold Scorer.raw_scores. apply foldl_ext_in. intros d q Hq.
    unfold Scorer.score_step. by rewrite (H q Hq). }
  assert (Ha : Scorer.answered cfg s1 = Scorer.answered cfg s2).
  { apply Nat.le_antisymm; apply answered_mono; intros q Hq; by rewrite (H q Hq). }
  unfold assess_stage, Scorer.coverage_of. by rewrite Hs, Ha.
Qed.

(** C10: two signal maps that agree on every declared question id get the
    same probabilities, label, scores and coverage from [assess_stage];
    entries under other ids have no effect. *)
Theorem assess_stage_declared_only (cfg : Config) (s1 s2 : gmap string (option Z)) :
  (∀ q, q ∈ questions cfg → s1 !! q_id q = s2 !! q_id q) →
  assess_stage cfg s1 = assess_stage cfg s2.
Proof.
  intros H. apply assess_stage_sig_get. intros q Hq.
  unfold sig_get. by rewrite (H q Hq).
Qed.

Lemma assess_stage_declared_only_witness :
  (∀ q, q ∈ questions default_cfg → q11_signals !! q_id q = q11_stale_signals !! q_id q)
  ∧ q11_signals ≠ q11_stale_signals
  ∧ assess_stage default_cfg q11_signals = assess_stage default_cfg q11_stale_signals.
Proof.
  assert (H1 : ∀ q, q ∈ questions default_cfg →
                    q11_signals !! q_id q = q11_stale_signals !! q_id q).
  { apply Forall_forall. by_compute. }
  split; [exact H1|]. split.
  - intros H. apply (f_equal (λ m : gmap string (option Z), m !! "Q0-retired")) in H.
    vm_compute in H. discriminate H.
  - exact (assess_stage_declared_only default_cfg q11_signals q11_stale_signals H1).
Defined.

(** ** Signal normaliser *)

Lemma normalize_signals_lookup (cfg : Config) (incoming : gmap string pyval) (k : string) :
  normalize_signals cfg incoming !! k
  = if decide (k ∈ declared_ids cfg) then Some (accept cfg incoming k) else None.
Proof.
  unfold normalize_signals, declared_ids.
  transitivity (foldl (λ (d : gmap string (option Z)) s, <[s := accept cfg incoming s]> d) ∅
                      (q_id <$> questions cfg) !! k).
  - by rewrite foldl_fmap.
  - rewrite foldl_insert_lookup. by rewrite lookup_empty.
Qed.

(** The test [v is None] is subsumed by the failure of [int(None)]. *)
Lemma accept_alt (cfg : Config) (incoming : gmap string pyval) (k : string) :
  accept cfg incoming k
  = match incoming !! k with
    | Some v =>
        match py_int v with
        | Some iv => if decide (iv ∈ allowed cfg) then Some iv else None
        | None => None
        end
    | None => None
    end.
Proof. unfold accept. destruct (incoming !! k) as [[]|]; done. Qed.

Lemma accept_Some (cfg : Config) (incoming : gmap string pyval) (k : string) (z : Z) :
  accept cfg incoming k = Some z
  ↔ ∃ v, incoming !! k = Some v ∧ py_int v = Some z ∧ z ∈ allowed cfg.
Proof.
  rewrite accept_alt. split.
  - destruct (incoming !! k) as [v|]; [|done].
    destruct (py_int v) as [iv|] eqn:Ei; [|done].
    case_decide; [|done]. intros [= <-]. exists v. done.
  - intros (v & -> & -> & Hin). by rewrite decide_True.
Qed.

Lemma trunc_integer (q : Q) (z : Z) : (q == inject_Z z)%Q → PyInt.trunc q = z.
Proof.
  unfold Qeq, PyInt.trunc. simpl. intros H. rewrite Z.mul_1_r in H. rewrite H.
  apply Z.quot_mul. done.
Qed.

Lemma lossless_py_int (v : pyval) (z : Z) : converts_losslessly v z → py_int v = Some z.
Proof.
  destruct v as [| | |[]| | |]; simpl; try done.
  - by intros ->.
  - by intros ->.
  - intros H. by rewrite (trunc_integer _ _ H).
Qed.

(** C3, as amended: [normalize_signals] returns a map whose keys are exactly
    the declared question ids; the entry of a question is the integer [z]
    exactly when the question is present in the incoming map, [int()] of its
    value succeeds with [z] (a fractional float is truncated toward zero,
    not refused) and [z] is in the answer scale, and it is null in every
    other case; a value that converts without loss is kept when in scale.
    The function is total: no input makes it fail. *)
Theorem normalize_signals_entries (cfg : Config) (incoming : gmap string pyval) :
  dom (normalize_signals cfg incoming) = list_to_set (declared_ids cfg)
  ∧ (∀ k z, normalize_signals cfg incoming !! k = Some (Some z)
            ↔ k ∈ declared_ids cfg
              ∧ ∃ v, incoming !! k = Some v ∧ py_int v = Some z ∧ z ∈ allowed cfg)
  ∧ (∀ k, k ∈ declared_ids cfg →
          (¬ ∃ v z, incoming !! k = Some v ∧ py_int v = Some z ∧ z ∈ allowed cfg) →
          normalize_signals cfg incoming !! k = Some None)
  ∧ (∀ k v z, k ∈ declared_ids cfg → incoming !! k = Some v →
              converts_losslessly v z → z ∈ allowed cfg →
              normalize_signals cfg incoming !! k = Some (Some z)).
Proof.
  split; [|split; [|split]].
  - apply set_eq. intros k. rewrite elem_of_dom, normalize_signals_lookup, elem_of_list_to_set.
    case_decide as Hk.
    + split; [done | eauto].
    + split; [by intros [? ?] | done].
  - intros k z. rewrite normalize_signals_lookup. case_decide as Hk.
    + rewrite <- accept_Some. split; [intros [= ->]; done | intros [_ ->]; done].
    + split; [done | by intros [? _]].
  - intros k Hk Hno. rewrite normalize_signals_lookup, decide_True by done.
    destruct (accept cfg incoming k) as [z|] eqn:E; [|done].
    apply accept_Some in E as (v & ? & ? & ?). destruct Hno. eauto.
  - intros k v z Hk Hv Hl Hz. rewrite normalize_signals_lookup, decide_True by done.
    f_equal. apply accept_Some. exists v. eauto using lossless_py_int.
Qed.

(** C3 fails as stated: the float 1.5 converts to no integer without loss,
    yet [int(1.5)] is 1, which is in the scale, so the entry is 1 and not
    null. *)
Lemma normalize_signals_truncates :
  "Q1" ∈ declared_ids default_cfg
  ∧ half_incoming !! "Q1" = Some (PyFloat (FFinite 1.5))
  ∧ (∀ z, ¬ converts_losslessly (PyFloat (FFinite 1.5)) z)
  ∧ normalize_signals default_cfg half_incoming !! "Q1" = Some (Some 1%Z).
Proof.
  split; [by_compute|]. split; [vm_compute; reflexivity|]. split.
  - intros z. unfold converts_losslessly, Qeq. simpl. lia.
  - vm_compute. reflexivity.
Qed.

Lemma normalize_signals_normalized (cfg : Config) (incoming : gmap string pyval) :
  normalized cfg (normalize_signals cfg incoming).
Proof.
  intros k [z|] Hk; [|done]. simpl.
  rewrite normalize_signals_lookup in Hk. case_decide as Hd; [|done].
  injection Hk as Hk. apply accept_Some in Hk as (v & _ & _ & Hz). done.
Qed.

(** ** User state manager *)

Lemma merge_fold_lookup (f : string → option Z) (l : list string)
    (sg : gmap string (option Z)) (k : string) :
  foldl (λ sg s, match f s with Some iv => <[s := Some iv]> sg | None => sg end) sg l !! k
  = match (if decide (k ∈ l) then f k else None) with
    | Some iv => Some (Some iv)
    | None => sg !! k
    end.
Proof.
  revert sg. induction l as [|a l IH]; intros sg; cbn [foldl].
  - rewrite decide_False; [done | apply not_elem_of_nil].
  - rewrite IH. destruct (decide (k ∈ l)) as [Hin|Hnin].
    + rewrite decide_True by (by right). destruct (f k) eqn:E; [done|].
      destruct (decide (k = a)) as [->|Hne]; [by rewrite E|].
      destruct (f a); [by rewrite lookup_insert_ne | done].
    + destruct (decide (k = a)) as [->|Hne].
      * rewrite decide_True by (by left).
        destruct (f a); [by rewrite lookup_insert_eq | done].
      * rewrite decide_False by (by intros [?|?]%elem_of_cons).
        destruct (f a); [by rewrite lookup_insert_ne | done].
Qed.

Lemma merge_signals_lookup (cfg : Config) (incoming : gmap string pyval)
    (sg : gmap string (option Z)) (k : string) :
  merge_signals cfg incoming sg !! k
  = match (if decide (k ∈ declared_ids cfg) then accept cfg incoming k else None) with
    | Some iv => Some (Some iv)
    | None => sg !! k
    end.
Proof.
  unfold merge_signals, declared_ids.
  rewrite <- (merge_fold_lookup (accept cfg incoming) (q_id <$> questions cfg) sg k).
  by rewrite foldl_fmap.
Qed.

Lemma accept_py_of_signals (cfg : Config) (n : gmap string (option Z)) (k : string) :
  accept cfg (py_of_signals n) k
  = match n !! k with
    | Some (Some z) => if decide (z ∈ allowed cfg) then Some z else None
    | _ => None
    end.
Proof.
  unfold accept, py_of_signals. rewrite lookup_fmap.
  destruct (n !! k) as [[z|]|]; done.
Qed.




(** C9: [update_user_state] keeps every value of [state.signals] inside the
    answer scale whatever the incoming values are: an entry changes only
    when the incoming value is converted by [int()] to a member of the
    scale, and then holds that member. *)
Theorem update_user_state_keeps_scale (now : string) (cfg : Config)
    (user_state : option UserState) (incoming : gmap string pyval) :
  let old := default (mkUserState ∅ []) user_state in
  let new := update_user_state now cfg user_state incoming in
  signals_in_scale cfg (signals old) →
  signals_in_scale cfg (signals new)
  ∧ ∀ k, signals new !! k ≠ signals old !! k →
         ∃ v z, incoming !! k = Some v ∧ py_int v = Some z ∧ z ∈ allowed cfg
                ∧ signals new !! k = Some (Some z).
Proof.
  intros old new Hold.
  assert (Hk : ∀ k, signals new !! k
                    = match (if decide (k ∈ declared_ids cfg)
                             then accept cfg incoming k else None) with
                      | Some iv => Some (Some iv)
                      | None => signals old !! k
                      end).
  { intros k. unfold new, update_user_state. cbn [signals]. apply merge_signals_lookup. }
  split.
  - intros k o. rewrite Hk. case_decide as Hd.
    + destruct (accept cfg incoming k) as [iv|] eqn:E.
      * intros [= <-]. simpl. apply accept_Some in E as (v & _ & _ & Hin). exact Hin.
      * apply Hold.
    + apply Hold.
  - intros k Hne. rewrite Hk in Hne |- *. case_decide as Hd; [|done].
    destruct (accept cfg incoming k) as [iv|] eqn:E; [|done].
    apply accept_Some in E as (v & Hv & Hi & Hin). exists v, iv. done.
Qed.

Lemma update_user_state_keeps_scale_witness :
  let old := default (mkUserState ∅ []) (Some some_state) in
  let new := update_user_state "2026-01-01T00:00:00" default_cfg (Some some_state)
                               messy_incoming in
  signals_in_scale default_cfg (signals old)
  ∧ signals_in_scale default_cfg (signals new)
  ∧ ∀ k, signals new !! k ≠ signals old !! k →
         ∃ v z, messy_incoming !! k = Some v ∧ py_int v = Some z
                ∧ z ∈ allowed default_cfg ∧ signals new !! k = Some (Some z).
Proof.
  intros old new.
  assert (H1 : signals_in_scale default_cfg (signals old)) by by_compute.
  split; [exact H1|].
  exact (update_user_state_keeps_scale "2026-01-01T00:00:00" default_cfg
           (Some some_state) messy_incoming H1).
Defined.

(** What the merge makes of the messy batch: 1.5 is stored as 1, the
    string as -2, and 7, the list and the undeclared id are dropped. *)
Lemma merge_messy_batch :
  merge_signals default_cfg messy_incoming (signals some_state)
  = {[ "Q1" := Some 1%Z; "Q2" := Some (-2)%Z; "Q5" := Some (-1)%Z; "Q11" := Some 2%Z ]}.
Proof. apply map_eq. intros k. vm_compute. reflexivity. Qed.

(** ** Configuration loader *)

Lemma fill_weights_lookup (stgs : list string) (w : gmap string Q) (s : string) :
  fill_weights stgs w !! s
  = if decide (s ∈ stgs) then Some (default 0%Q (w !! s)) else None.
Proof.
  unfold fill_weights. rewrite (foldl_insert_lookup (λ s, default 0%Q (w !! s))).
  by rewrite lookup_empty.
Qed.

Lemma load_questions_Some (stgs : list string) (qs : list RawQuestion)
    (qs' : list Question) :
  load_questions stgs qs = Some qs' →
  Forall2 (λ rq q, load_question stgs rq = Some q) qs qs'.
Proof.
  revert qs'. induction qs as [|q qs IH]; simpl; intros qs'.
  - intros [= <-]. constructor.
  - destruct (load_question stgs q) as [q'|] eqn:E; [|done].
    destruct (load_questions stgs qs) as [r|]; [|done].
    intros [= <-]. constructor; [done | by apply IH].
Qed.

(** ** Fingerprint *)

(** Induction on [reordered] that reaches the documents inside lists and
    dicts. *)
Lemma reordered_nested_ind (P : pyval → pyval → Prop) :
  (∀ v, P v v) →
  (∀ xs ys, Forall2 P xs ys → P (PyList xs) (PyList ys)) →
  (∀ kvs kvs' kvs'',
     kvs ≡ₚ kvs' →
     Forall2 (λ a b : string * pyval, a.1 = b.1 ∧ P a.2 b.2) kvs' kvs'' →
     P (PyDict kvs) (PyDict kvs'')) →
  ∀ d d', reordered d d' → P d d'.
Proof.
  intros Hsame Hlist Hdict. fix IH 3.
  intros d d' [v|xs ys Hxs|kvs kvs' kvs'' Hperm Hkvs].
  - apply Hsame.
  - apply Hlist. revert xs ys Hxs. fix IHl 3.
    intros xs ys [|x y xs' ys' Hxy Hrest]; constructor.
    + apply IH, Hxy.
    + apply IHl, Hrest.
  - apply (Hdict kvs kvs' kvs'' Hperm). clear Hperm. revert kvs' kvs'' Hkvs. fix IHl 3.
    intros kvs' kvs'' [|x y xs' ys' [Hk Hxy] Hrest]; constructor.
    + split; [exact Hk | apply IH, Hxy].
    + apply IHl, Hrest.
Qed.

Lemma ltb_asym (a b : string) : String.ltb a b = true → String.ltb b a = false.
Proof.
  unfold String.ltb. rewrite (String.compare_antisym a b).
  by destruct (String.compare b a).
Qed.

Lemma ltb_total (a b : string) : a ≠ b → String.ltb a b = false → String.ltb b a = true.
Proof.
  unfold String.ltb. intros Hne. rewrite (String.compare_antisym b a).
  destruct (String.compare a b) eqn:E; try done.
  by apply String.compare_eq_iff in E.
Qed.

Lemma ltb_trans (a b c : string) :
  String.ltb a b = true → String.ltb b c = true → String.ltb a c = true.
Proof.
  unfold String.ltb. intros Hab Hbc.
  assert (H1 : String_as_OT.lt a b).
  { apply String_as_OT.cmp_lt. unfold String_as_OT.cmp. by destruct (String.compare a b). }
  assert (H2 : String_as_OT.lt b c).
  { apply String_as_OT.cmp_lt. unfold String_as_OT.cmp. by destruct (String.compare b c). }
  pose proof (String_as_OT.lt_trans _ _ _ H1 H2) as H3.
  apply String_as_OT.cmp_lt in H3. unfold String_as_OT.cmp in H3. by rewrite H3.
Qed.

(** Two members with different keys can be inserted in either order. *)
Lemma insert_item_comm (a b : string * string) (l : list (string * string)) :
  a.1 ≠ b.1 →
  Json.insert_item a (Json.insert_item b l) = Json.insert_item b (Json.insert_item a l).
Proof.
  intros Hne. induction l as [|z l IH]; simpl.
  - destruct (String.ltb a.1 b.1) eqn:Eab.
    + by rewrite (ltb_asym _ _ Eab).
    + by rewrite (ltb_total _ _ Hne Eab).
  - destruct (String.ltb a.1 z.1) eqn:Eaz, (String.ltb b.1 z.1) eqn:Ebz; simpl.
    + rewrite Eaz, Ebz. destruct (String.ltb a.1 b.1) eqn:Eab.
      * by rewrite (ltb_asym _ _ Eab).
      * by rewrite (ltb_total _ _ Hne Eab).
    + rewrite Eaz, Ebz. destruct (String.ltb b.1 a.1) eqn:Eba; [|done].
      by rewrite (ltb_trans _ _ _ Eba Eaz) in Ebz.
    + rewrite Eaz, Ebz. destruct (String.ltb a.1 b.1) eqn:Eab; [|done].
      by rewrite (ltb_trans _ _ _ Eab Ebz) in Eaz.
    + by rewrite Eaz, Ebz, IH.
Qed.

(** Sorting by key forgets the order in which distinct keys arrive. *)
Lemma sort_items_perm (l1 l2 : list (string * string)) :
  NoDup l1.*1 → l1 ≡ₚ l2 → Json.sort_items l1 = Json.sort_items l2.
Proof.
  intros Hnd Hp. unfold Json.sort_items.
  apply (foldr_permutation (=) Json.insert_item []); [|done].
  intros j1 a1 j2 a2 b Hj H1 H2. apply insert_item_comm.
  intros Heq. apply Hj. eapply (NoDup_lookup _ _ _ _ Hnd).
  - rewrite list_lookup_fmap, H1. done.
  - rewrite list_lookup_fmap, H2. simpl. by rewrite Heq.
Qed.

Lemma dumps_dict (kvs : list (string * pyval)) :
  Json.dumps (PyDict kvs)
  = "{" ++ String.concat ", "
             (Json.member <$> Json.sort_items ((λ kv, (kv.1, Json.dumps kv.2)) <$> kvs))
        ++ "}".
Proof. reflexivity. Qed.

Lemma dumps_list (xs : list pyval) :
  Json.dumps (PyList xs) = "[" ++ String.concat ", " (Json.dumps <$> xs) ++ "]".
Proof. reflexivity. Qed.

Lemma forallb_Forall {A} (f : A → bool) (l : list A) :
  forallb f l = true → Forall (λ x, f x = true) l.
Proof.
  intros H. apply Forall_forall. intros x Hx.
  rewrite forallb_forall in H. apply H. by apply list_elem_of_In.
Qed.

Lemma dumps_reordered (d d' : pyval) :
  reordered d d' → distinct_keys d = true → Json.dumps d = Json.dumps d'.
Proof.
  intros H. induction H as [v|xs ys IH|kvs kvs' kvs'' Hp IH] using reordered_nested_ind.
  - done.
  - intros Hd. rewrite !dumps_list.
    cbn [distinct_keys] in Hd. apply forallb_Forall in Hd.
    assert (Heq : Json.dumps <$> xs = Json.dumps <$> ys).
    { induction IH as [|x y xs ys Hxy _ IHl]; [done|].
      apply Forall_cons in Hd as [Hx Hxs].
      rewrite !fmap_cons. by rewrite (Hxy Hx), (IHl Hxs). }
    by rewrite Heq.
  - intros Hd. rewrite !dumps_dict.
    cbn [distinct_keys] in Hd. apply andb_true_iff in Hd as [Hnd Hvals].
    apply bool_decide_eq_true in Hnd.
    assert (Hall : Forall (λ kv : string * pyval, distinct_keys kv.2 = true) kvs').
    { rewrite <- Hp. by apply forallb_Forall in Hvals. }
    assert (Hsame : (λ kv : string * pyval, (kv.1, Json.dumps kv.2)) <$> kvs'
                    = (λ kv : string * pyval, (kv.1, Json.dumps kv.2)) <$> kvs'').
    { clear Hp Hnd Hvals.
      induction IH as [|x y xs ys [Hk Hxy] _ IHl]; [done|].
      apply Forall_cons in Hall as [Hx Hxs].
      rewrite !fmap_cons. by rewrite Hk, (Hxy Hx), (IHl Hxs). }
    assert (Heq : Json.sort_items ((λ kv : string * pyval, (kv.1, Json.dumps kv.2)) <$> kvs)
                  = Json.sort_items ((λ kv : string * pyval, (kv.1, Json.dumps kv.2)) <$> kvs'')).
    { rewrite <- Hsame. apply sort_items_perm; [|by apply fmap_Permutation].
      by rewrite <- list_fmap_compose. }
    by rewrite Heq.
Qed.

(** C7, as amended: the fingerprint is a function of the dict content and
    does not depend on the order of its keys: two documents that differ
    only in the order in which dicts, at any depth, list their members
    have the same canonical serialisation and the same fingerprint.  (That
    a change of a weight, of the stage list or of the scale changes the
    fingerprint is not part of the statement: twelve hex digits of the
    digest are kept, and two weights with one fingerprint are exhibited
    below.) *)
Theorem config_hash_key_order (d d' : pyval) :
  distinct_keys d = true → reordered d d' →
  Json.dumps d = Json.dumps d' ∧ config_hash d = config_hash d'.
Proof.
  intros Hd Hr. pose proof (dumps_reordered d d' Hr Hd) as H.
  split; [exact H|]. unfold config_hash. by rewrite H.
Qed.

Lemma tiny_doc_reordered : reordered tiny_doc tiny_doc_shuffled.
Proof.
  unfold tiny_doc, tiny_doc_shuffled.
  eapply reordered_dict.
  { symmetry. exact (Permutation_cons_append [_; _] _). }
  constructor; [split; [reflexivity|] | repeat constructor].
  apply reordered_list. constructor; [|constructor].
  eapply reordered_dict.
  { symmetry. exact (Permutation_cons_append [_; _] _). }
  constructor; [split; [reflexivity|] | repeat constructor].
  eapply reordered_dict; [apply perm_swap | repeat constructor].
Defined.

Lemma config_hash_key_order_witness :
  distinct_keys tiny_doc = true ∧ reordered tiny_doc tiny_doc_shuffled
  ∧ Json.dumps tiny_doc = Json.dumps tiny_doc_shuffled
  ∧ config_hash tiny_doc = config_hash tiny_doc_shuffled.
Proof.
  assert (H1 : distinct_keys tiny_doc = true) by (vm_compute; reflexivity).
  split; [exact H1|]. split; [exact tiny_doc_reordered|].
  exact (config_hash_key_order tiny_doc tiny_doc_shuffled H1 tiny_doc_reordered).
Defined.

(** The serialiser and the digest on known values: the FIPS 180-4 test
    vector, and the shipped configuration, whose fingerprint is the one
    CPython computes. *)
Lemma fingerprint_known_values :
  Sha256.hexdigest (Json.utf8 "abc")
  = "ba7816bf8f01cfea414140de5dae2223b00361a396177a9cb410ff61f20015ad"
  ∧ config_hash (config_doc default_cfg) = "7f7601a399aa".
Proof. split; vm_compute; reflexivity. Qed.

(** C7 fails as stated: the shipped configuration with the weight of [Q20]
    for stage [SA] set to 4827767 and the same configuration with that
    weight set to 14177228 are both accepted by the loader, serialise
    differently, and have the same fingerprint. *)
Lemma config_hash_collision :
  load_assessment_config (reweigh_raw ASSESSMENT_CONFIG "Q20" "SA" 4827767) = Loaded heavy_a
  ∧ load_assessment_config (reweigh_raw ASSESSMENT_CONFIG "Q20" "SA" 14177228) = Loaded heavy_b
  ∧ (λ q, (q_id q, weight q "SA")) <$> last (questions heavy_a) = Some ("Q20", 4827767%Q)
  ∧ (λ q, (q_id q, weight q "SA")) <$> last (questions heavy_b) = Some ("Q20", 14177228%Q)
  ∧ ¬ (4827767 == 14177228)%Q
  ∧ Json.dumps (config_doc heavy_a) ≠ Json.dumps (config_doc heavy_b)
  ∧ config_hash (config_doc heavy_a) = "6e69753e6d07"
  ∧ config_hash (config_doc heavy_b) = "6e69753e6d07".
Proof.
  split; [vm_compute; reflexivity|]. split; [vm_compute; reflexivity|].
  split; [vm_compute; reflexivity|]. split; [vm_compute; reflexivity|].
  split; [intros H; vm_compute in H; discriminate H|].
  split.
  - intros H. apply (f_equal String.length) in H. vm_compute in H. discriminate H.
  - split; vm_compute; reflexivity.
Qed.

(** * Further properties of the code *)

(** ** The scorer without signals, and what the label needs *)

Lemma foldl_fixed {A B} (f : A → B → A) (l : list B) (a : A) :
  (∀ x, x ∈ l → f a x = a) → foldl f a l = a.
Proof.
  induction l as [|x l IH]; intros H; [done|]. cbn [foldl].
  rewrite (H x) by (by left). apply IH. intros y Hy. apply H. by right.
Qed.

Lemma raw_scores_no_signal (cfg : Config) (signals : gmap string (option Z)) :
  (∀ q, q ∈ questions cfg → sig_get signals (q_id q) = None) →
  Scorer.raw_scores cfg signals = Scorer.init_scores (stages cfg).
Proof.
  intros H. unfold Scorer.raw_scores. apply foldl_fixed.
  intros q Hq. unfold Scorer.score_step. by rewrite (H q Hq).
Qed.

Lemma prob_fun_no_signal (cfg : Config) (signals : gmap string (option Z)) (s : string) :
  (∀ q, q ∈ questions cfg → sig_get signals (q_id q) = None) →
  s ∈ stages cfg → prob_fun cfg signals s = 0%Q.
Proof.
  intros H Hs. unfold prob_fun. rewrite (raw_scores_no_signal cfg signals H).
  assert (Hitem : ∀ s', s' ∈ stages cfg →
            Scorer.py_max (Scorer.item (Scorer.init_scores (stages cfg)) s') 0 = 0%Q).
  { intros s' Hs'. unfold Scorer.item. rewrite init_scores_lookup, decide_True by done.
    reflexivity. }
  assert (Ht : (Scorer.vsum (Scorer.clamped (stages cfg)
                  (Scorer.init_scores (stages cfg))) == 0)%Q).
  { rewrite vsum_sumQ. unfold Scorer.clamped.
    rewrite (sumQ_fmap_ext _ (λ _, 0%Q)); [apply sumQ_zeros|].
    intros s' Hs'. by rewrite (Hitem s' Hs'). }
  assert (E : Qle_bool (Scorer.vsum (Scorer.clamped (stages cfg)
                 (Scorer.init_scores (stages cfg)))) 0 = true).
  { apply Qle_bool_iff. rewrite Ht. apply Qle_refl. }
  rewrite E. simpl. by apply Hitem.
Qed.

Lemma dominance_bound (probs : gmap string Q) (b : Q) :
  (0 <= b)%Q → (∀ s p, probs !! s = Some p → (p <= b)%Q) →
  (Scorer.dominance_of probs <= b)%Q.
Proof.
  intros Hb H. unfold Scorer.dominance_of.
  destruct ((map_to_list probs).*2) as [|x l] eqn:E; [exact Hb|].
  assert (Hin : Scorer.max_of (x :: l) ∈ (map_to_list probs).*2).
  { rewrite E. by apply max_of_in. }
  apply list_elem_of_fmap in Hin as ([s p] & Heq & Hin).
  change ((s, p).2) with p in Heq.
  rewrite Heq. apply (H s). by apply elem_of_map_to_list.
Qed.

Lemma dominance_nonneg (cfg : Config) (signals : gmap string (option Z)) :
  (0 <= Scorer.dominance_of (probs_of (assess_stage cfg signals)))%Q.
Proof.
  unfold Scorer.dominance_of.
  destruct ((map_to_list (probs_of (assess_stage cfg signals))).*2) as [|x l] eqn:E;
    [apply Qle_refl|].
  assert (Hin : Scorer.max_of (x :: l) ∈ (map_to_list (probs_of (assess_stage cfg signals))).*2).
  { rewrite E. by apply max_of_in. }
  apply list_elem_of_fmap in Hin as ([s p] & Heq & Hin).
  change ((s, p).2) with p in Heq. rewrite Heq.
  apply elem_of_map_to_list in Hin. rewrite probs_lookup in Hin.
  case_decide as Hs; [|done]. injection Hin as <-. by apply prob_fun_bounds.
Qed.


Lemma no_signal_probs_zero (cfg : Config) (signals : gmap string (option Z))
    (s : string) (p : Q) :
  (∀ q, q ∈ questions cfg → sig_get signals (q_id q) = None) →
  probs_of (assess_stage cfg signals) !! s = Some p → p = 0%Q.
Proof.
  intros H. rewrite probs_lookup. case_decide as Hs; [|done].
  intros [= <-]. by apply prob_fun_no_signal.
Qed.

Lemma no_signal_coverage (cfg : Config) (signals : gmap string (option Z)) :
  (∀ q, q ∈ questions cfg → sig_get signals (q_id q) = None) →
  (cov_of (assess_stage cfg signals) == 0)%Q.
Proof.
  intros H. unfold assess_stage, cov_of, Scorer.coverage_of. cbn [snd].
  rewrite (answered_none cfg signals H). unfold Qdiv. simpl. apply Qmult_0_l.
Qed.

Lemma no_signal_low (cfg : Config) (signals : gmap string (option Z)) :
  (∀ q, q ∈ questions cfg → sig_get signals (q_id q) = None) →
  conf_of (assess_stage cfg signals) = "low".
Proof.
  intros H. pose proof (no_signal_coverage cfg signals H) as Hc.
  assert (Hd : (Scorer.dominance_of (probs_of (assess_stage cfg signals)) <= 0)%Q).
  { apply dominance_bound; [apply Qle_refl|]. intros s p Hsp.
    rewrite (no_signal_probs_zero cfg signals s p H Hsp). apply Qle_refl. }
  pose proof (dominance_nonneg cfg signals) as Hd0.
  change (conf_of (assess_stage cfg signals)) with
    (Scorer.conf_label
       (0.6 * Scorer.dominance_of (probs_of (assess_stage cfg signals))
        + 0.4 * cov_of (assess_stage cfg signals))%Q).
  apply conf_label_low. lra.
Qed.

(** X1: with no non-null signal on any declared question, whatever the
    config, every stage has score 0 and probability 0, the coverage is 0
    and the label is "low". *)
Theorem assess_stage_no_signal (cfg : Config) (signals : gmap string (option Z)) :
  (∀ q, q ∈ questions cfg → sig_get signals (q_id q) = None) →
  let r := assess_stage cfg signals in
  (∀ s, s ∈ stages cfg →
        scores_of r !! s = Some 0%Q ∧ probs_of r !! s = Some 0%Q)
  ∧ (cov_of r == 0)%Q
  ∧ conf_of r = "low".
Proof.
  intros H r. split; [|split].
  - intros s Hs. split.
    + unfold r, assess_stage, scores_of. cbn [fst snd].
      rewrite (raw_scores_no_signal cfg signals H), init_scores_lookup.
      by rewrite decide_True.
    + unfold r. rewrite probs_lookup, decide_True by done.
      by rewrite (prob_fun_no_signal cfg signals s H Hs).
  - by apply no_signal_coverage.
  - by apply no_signal_low.
Qed.

Lemma assess_stage_no_signal_witness :
  (∀ q, q ∈ questions default_cfg → sig_get ∅ (q_id q) = None)
  ∧ let r := assess_stage default_cfg ∅ in
    (∀ s, s ∈ stages default_cfg →
          scores_of r !! s = Some 0%Q ∧ probs_of r !! s = Some 0%Q)
    ∧ (cov_of r == 0)%Q
    ∧ conf_of r = "low".
Proof.
  assert (H1 : ∀ q, q ∈ questions default_cfg → sig_get ∅ (q_id q) = None)
    by (intros q _; reflexivity).
  split; [exact H1|].
  exact (assess_stage_no_signal default_cfg ∅ H1).
Defined.


(** ** Normalising and merging, turn after turn *)

Lemma accept_normalized (cfg : Config) (incoming : gmap string pyval) (k : string) :
  k ∈ declared_ids cfg →
  accept cfg (py_of_signals (normalize_signals cfg incoming)) k = accept cfg incoming k.
Proof.
  intros Hk. rewrite accept_py_of_signals, normalize_signals_lookup, decide_True by done.
  destruct (accept cfg incoming k) as [z|] eqn:E; [|done].
  apply accept_Some in E as (v & _ & _ & Hz). by rewrite decide_True.
Qed.

Lemma merge_after_normalize (cfg : Config) (incoming : gmap string pyval)
    (sg : gmap string (option Z)) :
  merge_signals cfg (py_of_signals (normalize_signals cfg incoming)) sg
  = merge_signals cfg incoming sg.
Proof.
  apply map_eq. intros k. rewrite !merge_signals_lookup.
  case_decide as Hk; [|done]. by rewrite accept_normalized.
Qed.

(** X4: handing [update_user_state] the normalised batch, as the handler
    does, gives the same state as handing it the raw batch, and normalising
    a normalised batch changes nothing. *)
Theorem update_after_normalize (now : string) (cfg : Config)
    (user_state : option UserState) (incoming : gmap string pyval) :
  update_user_state now cfg user_state (py_of_signals (normalize_signals cfg incoming))
  = update_user_state now cfg user_state incoming
  ∧ normalize_signals cfg (py_of_signals (normalize_signals cfg incoming))
    = normalize_signals cfg incoming.
Proof.
  split.
  - unfold update_user_state. by rewrite merge_after_normalize.
  - apply map_eq. intros k. rewrite !normalize_signals_lookup.
    case_decide as Hk; [|done]. by rewrite accept_normalized.
Qed.

Lemma update_history (now : string) (cfg : Config) (st : UserState)
    (incoming : gmap string pyval) :
  ∃ snap, history (update_user_state now cfg (Some st) incoming) = (history st ++ [snap])%list
          ∧ timestamp snap = now.
Proof. unfold update_user_state. cbn [history default from_option id]. eauto. Qed.

Lemma update_signals_lookup (now : string) (cfg : Config) (st : UserState)
    (incoming : gmap string pyval) (k : string) :
  signals (update_user_state now cfg (Some st) incoming) !! k
  = match (if decide (k ∈ declared_ids cfg) then accept cfg incoming k else None) with
    | Some iv => Some (Some iv)
    | None => signals st !! k
    end.
Proof. unfold update_user_state. cbn [signals]. apply merge_signals_lookup. Qed.


Lemma coverage_mono (cfg : Config) (s1 s2 : gmap string (option Z)) :
  (∀ k, is_Some (sig_get s1 k) → is_Some (sig_get s2 k)) →
  (cov_of (assess_stage cfg s1) <= cov_of (assess_stage cfg s2))%Q.
Proof.
  intros H. unfold assess_stage, cov_of, Scorer.coverage_of. cbn [snd].
  apply nat_ratio_le; [lia|]. apply answered_mono. intros q _. apply H.
Qed.

(** X6: no number of turns takes an answer away: a question that has a
    non-null signal keeps one, every key of the signal map stays, and the
    coverage after the turns is at least the coverage before. *)
Theorem run_turns_signals_grow (cfg : Config) (st : UserState)
    (turns : list (string * gmap string pyval)) :
  let st' := run_turns cfg st turns in
  (∀ k, is_Some (sig_get (signals st) k) → is_Some (sig_get (signals st') k))
  ∧ (∀ k, is_Some (signals st !! k) → is_Some (signals st' !! k))
  ∧ (cov_of (assess_stage cfg (signals st)) <= cov_of (assess_stage cfg (signals st')))%Q.
Proof.
  intros st'.
  assert (H1 : ∀ k, is_Some (sig_get (signals st) k) → is_Some (sig_get (signals st') k)).
  { unfold st', run_turns. clear st'. revert st.
    induction turns as [|t turns IH]; intros st k Hk; cbn [foldl]; [done|].
    apply IH. unfold sig_get in *. rewrite update_signals_lookup.
    destruct (if decide (k ∈ declared_ids cfg) then accept cfg t.2 k else None);
      [simpl; eauto | done]. }
  split; [exact H1|]. split; [|by apply coverage_mono].
  unfold st', run_turns. clear st' H1. revert st.
  induction turns as [|t turns IH]; intros st k Hk; cbn [foldl]; [done|].
  apply IH. rewrite update_signals_lookup.
  destruct (if decide (k ∈ declared_ids cfg) then accept cfg t.2 k else None); eauto.
Qed.

(** X7: after any number of turns the entry of a declared question is the
    value of the last turn whose batch was accepted for it, however many
    turns came before, and the old entry when no turn was; entries under
    ids the config does not declare are never created or changed. *)
Theorem run_turns_last_write_wins (cfg : Config) (st : UserState)
    (turns : list (string * gmap string pyval)) (k : string) :
  signals (run_turns cfg st turns) !! k
  = if decide (k ∈ declared_ids cfg)
    then match last_accepted cfg k turns with
         | Some z => Some (Some z)
         | None => signals st !! k
         end
    else signals st !! k.
Proof.
  unfold run_turns, last_accepted.
  induction turns as [|t turns IH] using rev_ind.
  - cbn [foldl]. by case_decide.
  - rewrite !foldl_app. cbn [foldl]. rewrite update_signals_lookup, IH.
    case_decide as Hk; [|done]. by destruct (accept cfg t.2 k).
Qed.

(** ** [_trim_history] *)

(** The messages of a history: the entries that are dicts with both keys. *)
Lemma slice_from_suffix {A} (start : Z) (l : list A) :
  ∃ pre, l = (pre ++ slice_from start l)%list.
Proof.
  unfold slice_from. eexists. symmetry. apply take_drop.
Qed.

Lemma slice_from_last {A} (m : Z) (l : list A) :
  (0 < m)%Z →
  Z.of_nat (length (slice_from (- m) l)) = Z.min m (Z.of_nat (length l)).
Proof.
  intros Hm. unfold slice_from. rewrite length_drop.
  destruct (Z.ltb_spec (- m) 0); lia.
Qed.

Lemma slice_from_short {A} (m : Z) (l : list A) :
  (Z.of_nat (length l) <= m)%Z → slice_from (- m) l = l.
Proof.
  intros Hm. unfold slice_from.
  destruct (Z.ltb_spec (- m) 0).
  - replace (Z.to_nat (Z.max (- m + Z.of_nat (length l)) 0)) with 0%nat by lia. done.
  - replace (Z.to_nat (Z.min (- m) (Z.of_nat (length l)))) with 0%nat by lia. done.
Qed.

Lemma slice_from_zero {A} (l : list A) : slice_from (- 0) l = l.
Proof.
  unfold slice_from. change (- 0)%Z with 0%Z.
  destruct (Z.ltb_spec 0 0); [lia|].
  replace (Z.to_nat (Z.min 0 (Z.of_nat (length l)))) with 0%nat by lia. done.
Qed.

Lemma trim_history_unfold (history : option (list pyval)) (m : Z) :
  _trim_history history m
  = slice_from (- m) (filter (λ x, is_message x = true) (default [] history)).
Proof.
  destruct history as [[|h hs]|]; [|reflexivity|];
    cbn [_trim_history default from_option]; unfold id;
    rewrite filter_nil; unfold slice_from; by rewrite drop_nil.
Qed.

Lemma trim_history_all_messages (history : option (list pyval)) (m : Z) :
  Forall (λ h, is_message h = true) (_trim_history history m).
Proof.
  rewrite trim_history_unfold.
  destruct (slice_from_suffix (- m)
              (filter (λ x, is_message x = true) (default [] history))) as [pre Hpre].
  assert (Hk : Forall (λ h, is_message h = true)
                 (filter (λ x, is_message x = true) (default [] history))).
  { apply Forall_forall. intros h Hh. by apply list_elem_of_filter in Hh as [? _]. }
  rewrite Hpre in Hk. by apply Forall_app in Hk as [_ ?].
Qed.

(** X8: [_trim_history] returns only entries that are dicts holding both
    "role" and "content", as an end piece of the history's entries of that
    kind in their order; for a positive [max_messages] it returns the last
    [max_messages] of them, or all when there are fewer. *)
Theorem trim_history_messages (history : option (list pyval)) (max_messages : Z) :
  let kept := filter (λ x, is_message x = true) (default [] history) in
  let out := _trim_history history max_messages in
  Forall (λ h, is_message h = true) out
  ∧ (∃ dropped, kept = (dropped ++ out)%list)
  ∧ ((0 < max_messages)%Z →
     Z.of_nat (length out) = Z.min max_messages (Z.of_nat (length kept))).
Proof.
  intros kept out. split; [apply trim_history_all_messages|].
  unfold out. rewrite trim_history_unfold. fold kept. split.
  - apply slice_from_suffix.
  - apply slice_from_last.
Qed.

(** X9: a [max_messages] of 0 does not empty the history: the slice
    [history[-0:]] is the whole list, so every well-formed message is
    returned. *)
Theorem trim_history_zero_keeps_all (history : option (list pyval)) :
  _trim_history history 0 = filter (λ x, is_message x = true) (default [] history).
Proof. rewrite trim_history_unfold. apply slice_from_zero. Qed.

Lemma filter_all {A} (P : A → Prop) `{∀ x, Decision (P x)} (l : list A) :
  Forall P l → filter P l = l.
Proof.
  induction 1 as [|x l Hx _ IH]; [done|].
  rewrite filter_cons_True by done. by rewrite IH.
Qed.

(** X10: for a [max_messages] that is not negative, trimming a trimmed
    history changes nothing. *)
Theorem trim_history_idempotent (history : option (list pyval)) (max_messages : Z) :
  (0 <= max_messages)%Z →
  _trim_history (Some (_trim_history history max_messages)) max_messages
  = _trim_history history max_messages.
Proof.
  intros Hm.
  pose proof (trim_history_all_messages history max_messages) as Hall.
  assert (Hlen : (0 < max_messages)%Z →
            Z.of_nat (length (_trim_history history max_messages))
            = Z.min max_messages
                (Z.of_nat (length (filter (λ x, is_message x = true)
                                          (default [] history))))).
  { rewrite trim_history_unfold. apply slice_from_last. }
  rewrite (trim_history_unfold (Some _)).
  change (default [] (Some (_trim_history history max_messages)))
    with (_trim_history history max_messages).
  rewrite (filter_all _ _ Hall).
  destruct (Z.eq_dec max_messages 0%Z) as [->|Hne].
  - apply slice_from_zero.
  - apply slice_from_short. rewrite Hlen by lia. lia.
Qed.

Lemma trim_history_idempotent_witness :
  (0 <= 2)%Z
  ∧ _trim_history (Some (_trim_history (Some sample_history) 2)) 2
    = _trim_history (Some sample_history) 2.
Proof.
  assert (H1 : (0 <= 2)%Z) by lia.
  split; [exact H1|].
  exact (trim_history_idempotent (Some sample_history) 2 H1).
Defined.

(** ** The bracket scanner *)

Lemma StronglySorted_snoc {A} (R : A → A → Prop) (l : list A) (x : A) :
  StronglySorted R l → Forall (λ y, R y x) l → StronglySorted R (l ++ [x]).
Proof.
  induction 1 as [|y l Hl IH Hy]; intros Hx; simpl.
  - repeat constructor.
  - apply Forall_cons in Hx as [Hyx Hlx]. constructor; [by apply IH|].
    apply Forall_app. split; [done | by constructor].
Qed.

Lemma scan_inv_weaken (text : list ascii) (i : Z) (st st' : Scan.state) :
  Scan.candidate_blocks st' = Scan.candidate_blocks st →
  Scan.start st' = Scan.start st →
  scan_inv text i st → scan_inv text (i + 1) st'.
Proof.
  intros Hb Hs (Hstart & spans & H1 & H2 & H3 & H4 & H5).
  unfold scan_inv. rewrite Hb, Hs. split.
  - destruct Hstart as [?|(? & ? & ?)]; [by left | right; split; [done|split; [lia|done]]].
  - exists spans. repeat split; try done.
    eapply Forall_impl; [exact H4|]. simpl. intros. lia.
Qed.

Lemma scan_inv_branch (text : list ascii) (i : nat) (c : ascii) (st : Scan.state) :
  text !! i = Some c →
  scan_inv text (Z.of_nat i) st →
  scan_inv text (Z.of_nat i + 1) (Scan.branch text (Z.of_nat i) c st).
Proof.
  intros Hc Hinv. unfold Scan.branch.
  destruct (Scan.is_backslash c); [by apply (scan_inv_weaken text _ st)|].
  destruct (Scan.is_quote c && negb (Scan.escape st));
    [by apply (scan_inv_weaken text _ st)|].
  destruct (negb (Scan.in_string st)); [|by apply (scan_inv_weaken text _ st)].
  destruct (Scan.is_open c) eqn:Eo.
  - destruct Hinv as (Hstart & spans & H1 & H2 & H3 & H4 & H5).
    unfold scan_inv. cbn [Scan.start Scan.candidate_blocks].
    destruct (Scan.depth st =? 0)%Z.
    + split.
      * right. split; [lia|]. split; [lia|]. exists c. by rewrite Nat2Z.id.
      * exists spans. repeat split; try done.
        eapply Forall_impl; [exact H4|]. simpl. intros. lia.
    + split.
      * destruct Hstart as [?|(? & ? & ?)]; [by left|].
        right. split; [done|]. split; [lia|done].
      * exists spans. repeat split; try done.
        eapply Forall_impl; [exact H4|]. simpl. intros. lia.
  - destruct (Scan.is_close c) eqn:Ec; [|by apply (scan_inv_weaken text _ st)].
    destruct ((Scan.depth st - 1 =? 0)%Z && negb (Scan.start st =? -1)%Z) eqn:Eg;
      [|by apply (scan_inv_weaken text _ st)].
    apply andb_true_iff in Eg as [_ Hne]. apply negb_true_iff, Z.eqb_neq in Hne.
    destruct Hinv as (Hstart & spans & H1 & H2 & H3 & H4 & H5).
    destruct Hstart as [?|(Hs0 & Hsi & Hso)]; [done|].
    unfold scan_inv. cbn [Scan.start Scan.candidate_blocks]. split; [by left|].
    exists (spans ++ [(Scan.start st, Z.of_nat i)])%list.
    split; [by rewrite fmap_app, H1|].
    split.
    { apply Forall_app. split; [done|]. constructor; [|done].
      unfold bracket_span. cbn [fst snd]. split; [done|]. split; [lia|].
      split; [apply lookup_lt_Some in Hc; lia|]. split; [done|].
      exists c. by rewrite Nat2Z.id. }
    split.
    { apply StronglySorted_snoc; [done|]. by apply H5. }
    split; [|done].
    apply Forall_app. split.
    + eapply Forall_impl; [exact H4|]. simpl. intros. lia.
    + constructor; [simpl; lia | done].
Qed.

Lemma scan_inv_step (text : list ascii) (i : nat) (c : ascii) (st : Scan.state) :
  text !! i = Some c →
  scan_inv text (Z.of_nat i) st →
  scan_inv text (Z.of_nat (S i)) (Scan.step text (Z.of_nat i) c st).
Proof.
  intros Hc Hinv. pose proof (scan_inv_branch text i c st Hc Hinv) as H.
  replace (Z.of_nat (S i)) with (Z.of_nat i + 1)%Z by lia.
  unfold Scan.step.
  destruct (Scan.escape (Scan.branch text (Z.of_nat i) c st) && negb (Scan.is_backslash c));
    [|done].
  destruct H as (Hstart & Hspans). split; done.
Qed.

Lemma scan_inv_loop (text pre rest : list ascii) (st : Scan.state) :
  text = (pre ++ rest)%list →
  scan_inv text (Z.of_nat (length pre)) st →
  scan_inv text (Z.of_nat (length text))
           (Scan.loop text (Z.of_nat (length pre)) rest st).
Proof.
  revert pre st. induction rest as [|c rest IH]; intros pre st Ht Hinv; cbn [Scan.loop].
  - rewrite app_nil_r in Ht. by subst.
  - replace (Z.of_nat (length pre) + 1)%Z with (Z.of_nat (length (pre ++ [c]))).
    2:{ rewrite length_app. simpl. lia. }
    apply IH.
    + by rewrite <- app_assoc.
    + rewrite length_app. cbn [length]. rewrite Nat.add_1_r.
      apply scan_inv_step; [|done].
      rewrite Ht. by rewrite list_lookup_middle.
Qed.

(** X11: every candidate block the scanner cuts out is a piece
    [text[s:e+1]] of the text that begins at an opening bracket and ends at
    a closing bracket; the blocks come in text order and do not overlap; a
    text without a closing bracket has no candidate block. *)
Theorem scan_blocks_shape (text : list ascii) :
  (∃ spans,
     Scan.candidate_blocks (Scan.run text)
     = (λ se, Scan.slice text se.1 (se.2 + 1)) <$> spans
     ∧ Forall (bracket_span text) spans
     ∧ StronglySorted before spans)
  ∧ ((∀ c, c ∈ text → Scan.is_close c = false) →
     Scan.candidate_blocks (Scan.run text) = []).
Proof.
  assert (Hinv : scan_inv text (Z.of_nat (length text)) (Scan.run text)).
  { unfold Scan.run. apply (scan_inv_loop text [] text); [done|].
    split; [by left|]. exists []. repeat split; try done; constructor. }
  destruct Hinv as (_ & spans & H1 & H2 & H3 & _ & _).
  split; [by exists spans|].
  intros Hno. rewrite H1. destruct spans as [|se spans]; [done|].
  apply Forall_cons in H2 as [(_ & _ & _ & _ & c & Hc & Hclose) _].
  rewrite (Hno c) in Hclose; [done|]. by eapply list_elem_of_lookup_2.
Qed.

(** The scanner on a reply with prose around two bracket groups. *)
Lemma scan_blocks_sample :
  scan_blocks sample_reply
  = ["{" ++ Json.quote ++ "a" ++ Json.quote ++ ": [1, 2]}"; "[3]"].
Proof. vm_compute. reflexivity. Qed.

(** ** The [/chat] handler *)

Lemma any_signal_spec (m : gmap string (option Z)) :
  any_signal m = true ↔ ∃ k z, m !! k = Some (Some z).
Proof.
  unfold any_signal. rewrite existsb_exists. split.
  - intros ([k o] & Hin & Hb). apply list_elem_of_In, elem_of_map_to_list in Hin.
    apply bool_decide_eq_true in Hb as [z Hz]. simpl in Hz. subst o. eauto.
  - intros (k & z & Hk). exists (k, Some z). split.
    + by apply list_elem_of_In, elem_of_map_to_list.
    + apply bool_decide_eq_true. simpl. eauto.
Qed.

Lemma any_signal_normalized (cfg : Config) (signals_raw : gmap string pyval) :
  any_signal (normalize_signals cfg signals_raw) = true
  ↔ ∃ k, k ∈ declared_ids cfg ∧ is_Some (accept cfg signals_raw k).
Proof.
  rewrite any_signal_spec. split.
  - intros (k & z & Hk). rewrite normalize_signals_lookup in Hk.
    case_decide as Hd; [|done]. injection Hk as Hk. exists k. rewrite Hk. eauto.
  - intros (k & Hd & z & Hz). exists k, z.
    by rewrite normalize_signals_lookup, decide_True, Hz.
Qed.

Lemma state_key_inj (a b : string) : state_key a = state_key b → a = b.
Proof. unfold state_key. simpl. intros [= H]. exact H. Qed.

(** X12: the handler stores, under the user's key, the loaded state
    untouched when the batch holds no value accepted for a declared
    question, and otherwise the state [update_user_state] makes of it,
    whose history is one snapshot longer; either way the probabilities,
    label and coverage it answers with are those of the stored signals. *)
Theorem chat_core_state (now : string) (cfg : Config) (store : gmap string UserState)
    (req : ChatRequest) (reply : string) (signals_raw : gmap string pyval) :
  let key := state_key (user_id req) in
  let old := default (mkUserState ∅ []) (store !! key) in
  let resp := (chat_core now cfg store req reply signals_raw).1 in
  let store' := (chat_core now cfg store req reply signals_raw).2 in
  ((∀ k, k ∈ declared_ids cfg → accept cfg signals_raw k = None) →
   store' !! key = Some old)
  ∧ ((∃ k, k ∈ declared_ids cfg ∧ is_Some (accept cfg signals_raw k)) →
     store' !! key = Some (update_user_state now cfg (Some old) signals_raw)
     ∧ ∃ new, store' !! key = Some new
              ∧ length (history new) = S (length (history old)))
  ∧ ∃ stored, store' !! key = Some stored
      ∧ (resp_stage_probs resp, confidence resp, resp_coverage resp)
        = (probs_of (assess_stage cfg (signals stored)),
           conf_of (assess_stage cfg (signals stored)),
           cov_of (assess_stage cfg (signals stored))).
Proof.
  intros key old resp store'. unfold resp, store', chat_core.
  fold key. fold old. cbn [fst snd].
  destruct (any_signal (normalize_signals cfg signals_raw)) eqn:E.
  - apply any_signal_normalized in E as Hex.
    rewrite lookup_insert_eq.
    assert (Hu : update_user_state now cfg (Some old)
                   (py_of_signals (normalize_signals cfg signals_raw))
                 = update_user_state now cfg (Some old) signals_raw).
    { unfold update_user_state. by rewrite merge_after_normalize. }
    rewrite Hu.
    split; [|split].
    + intros Hnone. destruct Hex as (k & Hk & z & Hz). rewrite (Hnone k Hk) in Hz. done.
    + intros _. split; [done|]. eexists. split; [done|].
      destruct (update_history now cfg old signals_raw) as (snap & -> & _).
      rewrite length_app. simpl. lia.
    + eexists. split; [done|]. done.
  - rewrite lookup_insert_eq. split; [done|]. split.
    + intros Hex. apply any_signal_normalized in Hex. congruence.
    + eexists. split; done.
Qed.

(** X13: a turn of one user changes the stored state of no other user:
    distinct user ids have distinct keys, and every key but the user's own
    holds after the turn what it held before. *)
Theorem chat_core_other_users (now : string) (cfg : Config) (store : gmap string UserState)
    (req : ChatRequest) (reply : string) (signals_raw : gmap string pyval) :
  let store' := (chat_core now cfg store req reply signals_raw).2 in
  (∀ other, other ≠ user_id req →
            store' !! state_key other = store !! state_key other)
  ∧ ∀ key, key ≠ state_key (user_id req) → store' !! key = store !! key.
Proof.
  intros store'.
  assert (H : ∀ key, key ≠ state_key (user_id req) → store' !! key = store !! key).
  { intros key Hne. unfold store', chat_core. cbn [snd]. by rewrite lookup_insert_ne. }
  split; [|exact H]. intros other Hne. apply H. intros Heq.
  by apply state_key_inj in Heq.
Qed.

Lemma accept_empty (cfg : Config) (k : string) : accept cfg ∅ k = None.
Proof. unfold accept. by rewrite lookup_empty. Qed.

Lemma any_signal_empty (cfg : Config) : any_signal (normalize_signals cfg ∅) = false.
Proof.
  destruct (any_signal (normalize_signals cfg ∅)) eqn:E; [|done].
  apply any_signal_normalized in E as (k & _ & z & Hz).
  by rewrite accept_empty in Hz.
Qed.

(** X14: the handler as it stands, with the model call switched off,
    answers with the user's own message and an all-null signal entry for
    every declared question, and never changes what is stored of a user's
    signals and history: it stores back the state it loaded, or the empty
    state for a user it has not seen. *)
Theorem chat_learns_nothing (now : string) (cfg : Config) (store : gmap string UserState)
    (req : ChatRequest) :
  let key := state_key (user_id req) in
  let resp := (chat now cfg store req).1 in
  let store' := (chat now cfg store req).2 in
  store' !! key = Some (default (mkUserState ∅ []) (store !! key))
  ∧ assistant_message resp = message req
  ∧ (∀ k, resp_signals resp !! k
          = if decide (k ∈ declared_ids cfg) then Some None else None).
Proof.
  intros key resp store'. split; [|split; [done|]].
  { unfold store', chat, chat_core. cbn [snd].
    by rewrite any_signal_empty, lookup_insert_eq. }
  intros k. unfold resp, chat, chat_core. cbn [fst resp_signals].
  rewrite normalize_signals_lookup. case_decide; [|done]. by rewrite accept_empty.
Qed.

(** ** The shape of a fingerprint *)

Lemma str_length_app (a b : string) :
  String.length (a ++ b) = (String.length a + String.length b)%nat.
Proof. induction a as [|c a IH]; simpl; [done | by rewrite IH]. Qed.

Lemma hex_string_app (a b : string) :
  hex_string a = true → hex_string b = true → hex_string (a ++ b) = true.
Proof.
  induction a as [|c a IH]; simpl; [done|].
  intros [Hc Ha]%andb_true_iff Hb. by rewrite Hc, IH.
Qed.

Lemma substring_prefix (n : nat) (s : string) :
  (n ≤ String.length s)%nat → hex_string s = true →
  String.length (substring 0 n s) = n ∧ hex_string (substring 0 n s) = true.
Proof.
  revert s. induction n as [|n IH]; intros s Hn Hs.
  - by destruct s.
  - destruct s as [|c s]; simpl in *; [lia|].
    apply andb_true_iff in Hs as [Hc Hs].
    destruct (IH s) as [H1 H2]; [lia | done |]. by rewrite H1, H2, Hc.
Qed.

Lemma hex_digit_is_hex (x : Z) : is_hex (Sha256.hex_digit (Z.land x 15)) = true.
Proof.
  assert (H : (0 <= Z.land x 15 < 16)%Z).
  { change 15%Z with (Z.ones 4). rewrite Z.land_ones by lia. apply Z.mod_pos_bound. lia. }
  destruct (Z.land x 15) as [|p|p]; [reflexivity| |lia].
  assert (Hp : (Z.pos p < 16)%Z) by lia.
  do 4 (destruct p as [p|p|]; try reflexivity; try lia).
Qed.

Lemma hex_shape (n : nat) (x : Z) :
  String.length (Sha256.hex n x) = n ∧ hex_string (Sha256.hex n x) = true.
Proof.
  revert x. induction n as [|n IH]; intros x; [done|]. cbn [Sha256.hex].
  destruct (IH (Z.shiftr x 4)) as [H1 H2]. split.
  - rewrite str_length_app, H1. simpl. lia.
  - apply hex_string_app; [done|]. simpl. by rewrite hex_digit_is_hex.
Qed.

Lemma str_append_nil_r (a : string) : a ++ EmptyString = a.
Proof.
  induction a as [|c a IH]; [done|].
  change (String c (a ++ EmptyString) = String c a). by rewrite IH.
Qed.

Lemma concat_empty_cons (x : string) (l : list string) :
  String.concat EmptyString (x :: l) = x ++ String.concat EmptyString l.
Proof.
  destruct l as [|h hs]; cbn [String.concat]; [by rewrite str_append_nil_r | done].
Qed.

Lemma concat_hex_shape (ws : list Z) :
  String.length (String.concat EmptyString (Sha256.hex 8 <$> ws)) = (8 * length ws)%nat
  ∧ hex_string (String.concat EmptyString (Sha256.hex 8 <$> ws)) = true.
Proof.
  induction ws as [|w ws [IH1 IH2]]; [done|].
  destruct (hex_shape 8 w) as [H1 H2].
  rewrite fmap_cons, concat_empty_cons. split.
  - rewrite str_length_app, H1, IH1. cbn [length]. lia.
  - by apply hex_string_app.
Qed.

Lemma round_length (st : list Z) (kw : Z * Z) :
  length (Sha256.round st kw) = length st.
Proof.
  unfold Sha256.round.
  do 9 (destruct st as [|? st]; [done|]); done.
Qed.

Lemma compress_length (h block : list Z) :
  length (Sha256.compress h block) = length h.
Proof.
  unfold Sha256.compress. rewrite length_zip_with_l_eq; [done|].
  generalize (zip Sha256.K (Sha256.schedule block)). intros l.
  assert (H : ∀ st, length (foldl Sha256.round st l) = length st).
  { induction l as [|kw l IH]; intros st; cbn [foldl]; [done|].
    by rewrite IH, round_length. }
  by rewrite H.
Qed.

Lemma digest_length (msg : list Z) : length (Sha256.digest msg) = 8%nat.
Proof.
  unfold Sha256.digest.
  generalize (Sha256.chunks 64 (Sha256.pad msg) (length (Sha256.pad msg))). intros l.
  assert (H : ∀ h, length (foldl Sha256.compress h l) = length h).
  { induction l as [|b l IH]; intros h; cbn [foldl]; [done|].
    by rewrite IH, compress_length. }
  by rewrite H.
Qed.

(** X15: whatever the document, its fingerprint is a string of exactly
    twelve lowercase hexadecimal digits. *)
Theorem config_hash_shape (doc : pyval) :
  String.length (config_hash doc) = 12%nat ∧ hex_string (config_hash doc) = true.
Proof.
  unfold config_hash, Sha256.hexdigest.
  destruct (concat_hex_shape (Sha256.digest (Json.utf8 (Json.dumps doc)))) as [H1 H2].
  rewrite digest_length in H1.
  apply substring_prefix; [rewrite H1; lia | done].
Qed.

(** ** Loading what was loaded *)

Lemma fill_weights_idem (stgs : list string) (w : gmap string Q) :
  fill_weights stgs (fill_weights stgs w) = fill_weights stgs w.
Proof.
  apply map_eq. intros s. rewrite !fill_weights_lookup.
  by case_decide.
Qed.

Lemma load_questions_reload (stgs : list string) (rqs : list RawQuestion)
    (qs : list Question) :
  load_questions stgs rqs = Some qs →
  load_questions stgs
    ((λ q, mkRawQuestion (Some (q_id q)) (Some (q_text q)) (Some (q_weights q))) <$> qs)
  = Some qs.
Proof.
  intros H. apply load_questions_Some in H.
  induction H as [|rq q rqs qs Hq _ IH]; [done|].
  rewrite fmap_cons. cbn [load_questions]. rewrite IH.
  unfold load_question in *. cbn [raw_id raw_text raw_weights].
  destruct (raw_id rq), (raw_text rq), (raw_weights rq) as [w|]; try done.
  injection Hq as <-. cbn [q_id q_text q_weights]. by rewrite fill_weights_idem.
Qed.

(** X16: loading is a projection: the config a successful load returns,
    read again as a document, loads successfully to the very same config
    (the weights it filled in are not touched a second time). *)
Theorem load_assessment_config_reload (raw : RawConfig) (cfg : Config) :
  load_assessment_config raw = Loaded cfg →
  load_assessment_config (raw_of_config cfg) = Loaded cfg.
Proof.
  unfold load_assessment_config.
  destruct (raw_stages raw) as [stgs|]; [|done].
  destruct (raw_questions raw) as [rqs|]; [|done].
  destruct (load_questions stgs rqs) as [qs|] eqn:E; [|done].
  intros [= <-]. cbn [raw_of_config raw_stages raw_questions raw_version
                      raw_answer_scale stages questions version answer_scale].
  by rewrite (load_questions_reload stgs rqs qs E).
Qed.

Lemma load_assessment_config_reload_witness :
  load_assessment_config ASSESSMENT_CONFIG = Loaded default_cfg
  ∧ load_assessment_config (raw_of_config default_cfg) = Loaded default_cfg.
Proof.
  assert (H1 : load_assessment_config ASSESSMENT_CONFIG = Loaded default_cfg)
    by (vm_compute; reflexivity).
  split; [exact H1|].
  exact (load_assessment_config_reload ASSESSMENT_CONFIG default_cfg H1).
Defined.

(** ** Rows of the conversation table *)

Lemma lstrip_head (s : list ascii) (c : ascii) (rest : list ascii) :
  lstrip s = c :: rest → is_space c = false.
Proof.
  induction s as [|a s IH]; simpl; [done|].
  destruct (is_space a) eqn:E; [exact IH|]. by intros [= <- _].
Qed.

Lemma lstrip_suffix (s : list ascii) : ∃ front, s = (front ++ lstrip s)%list.
Proof.
  induction s as [|a s [front IH]]; simpl; [by exists []|].
  destruct (is_space a).
  - exists (a :: front). simpl. by rewrite <- IH.
  - by exists [].
Qed.

Lemma py_strip_stripped (s : list ascii) : stripped (py_strip s).
Proof.
  unfold py_strip. split.
  - intros c rest H.
    destruct (lstrip_suffix (rev (lstrip s))) as [front Hf].
    apply (f_equal (@rev ascii)) in H. rewrite rev_involutive in H. simpl in H.
    rewrite H in Hf. rewrite app_assoc in Hf.
    apply (f_equal (@rev ascii)) in Hf. rewrite rev_involutive, rev_unit in Hf.
    by apply lstrip_head in Hf.
  - intros c front H.
    apply (f_equal (@rev ascii)) in H. rewrite rev_involutive, rev_unit in H.
    by apply lstrip_head in H.
Qed.

Lemma list_ascii_string_id (l : list ascii) :
  list_ascii_of_string (string_of_list_ascii l) = l.
Proof. apply list_ascii_of_string_of_list_ascii. Qed.

Lemma row_field_stripped (row : pyval) (key : string) (l : list ascii) :
  row_field row key = Some l → stripped l.
Proof.
  unfold row_field. destruct row as [| | | | | |kvs]; try done.
  assert (He : stripped []).
  { split; intros c r H; [done|]. by destruct r. }
  destruct (dict_get kvs key) as [v|]; [|by intros [= <-]].
  destruct (py_truthy v); [|by intros [= <-]].
  destruct v; try done. intros [= <-]. apply py_strip_stripped.
Qed.

Lemma row_message_shape (row : pyval) (m : string * string) :
  row_message row = Some (Some m) →
  (m.1 = "user" ∨ m.1 = "assistant")
  ∧ m.2 ≠ EmptyString
  ∧ stripped (list_ascii_of_string m.2).
Proof.
  unfold row_message.
  destruct (row_field row "role") as [role|]; [|done].
  destruct (row_field row "content") as [content|] eqn:Ec; [|done].
  destruct ((String.eqb (string_of_list_ascii role) "user"
             || String.eqb (string_of_list_ascii role) "assistant")
            && match content with [] => false | _ => true end) eqn:E; [|done].
  intros [= <-]. cbn [fst snd].
  apply andb_true_iff in E as [Hr Hc]. split; [|split].
  - apply orb_true_iff in Hr as [H|H]; apply String.eqb_eq in H; auto.
  - destruct content; [done|]. done.
  - rewrite list_ascii_string_id. by eapply row_field_stripped.
Qed.

Lemma collect_rows_shape (rows : list pyval) (out : list (string * string)) :
  collect_rows rows = Some out →
  Forall (λ m, (m.1 = "user" ∨ m.1 = "assistant")
               ∧ m.2 ≠ EmptyString
               ∧ stripped (list_ascii_of_string m.2)) out
  ∧ (length out ≤ length rows)%nat.
Proof.
  revert out. induction rows as [|row rows IH]; intros out; cbn [collect_rows].
  - intros [= <-]. split; [constructor | done].
  - destruct (row_message row) as [m|] eqn:Em; [|done].
    destruct (collect_rows rows) as [out'|]; [|done].
    destruct (IH out' eq_refl) as [H1 H2].
    intros [= <-]. destruct m as [m|]; cbn [length].
    + split; [|lia]. constructor; [by eapply row_message_shape | done].
    + split; [done | lia].
Qed.

Lemma collect_rows_app (xs ys : list pyval) (a b : list (string * string)) :
  collect_rows xs = Some a → collect_rows ys = Some b →
  collect_rows (xs ++ ys) = Some (a ++ b)%list.
Proof.
  revert a. induction xs as [|x xs IH]; intros a Ha Hb.
  - cbn [collect_rows] in Ha. injection Ha as <-. exact Hb.
  - change ((x :: xs) ++ ys)%list with (x :: (xs ++ ys))%list.
    cbn [collect_rows] in Ha |- *.
    destruct (row_message x) as [m|]; [|done].
    destruct (collect_rows xs) as [a'|]; [|done].
    rewrite (IH a' eq_refl Hb). injection Ha as <-. by destruct m.
Qed.

(** X17: when [load_recent_conversation] gets through the rows, every
    message it returns has the role "user" or "assistant" and a non-empty
    content without white space at either end, and there are at most as
    many messages as rows; rows arrive newest first and leave oldest
    first, so the conversation of a body that lists [xs] before [ys] is the
    conversation of [ys] followed by that of [xs]. *)
Theorem conversation_of_rows_shape (xs ys : list pyval) (a b : list (string * string)) :
  conversation_of_rows (PyList xs) = Some a →
  conversation_of_rows (PyList ys) = Some b →
  Forall (λ m, (m.1 = "user" ∨ m.1 = "assistant")
               ∧ m.2 ≠ EmptyString
               ∧ stripped (list_ascii_of_string m.2)) a
  ∧ (length a ≤ length xs)%nat
  ∧ conversation_of_rows (PyList (xs ++ ys)) = Some (b ++ a)%list.
Proof.
  assert (Hc : ∀ l, conversation_of_rows (PyList l) = collect_rows (rev l)).
  { intros [|x l]; [done|]. reflexivity. }
  rewrite !Hc. intros Ha Hb.
  destruct (collect_rows_shape (rev xs) a Ha) as [H1 H2].
  rewrite length_rev in H2.
  split; [done|]. split; [done|].
  rewrite rev_app_distr. by apply collect_rows_app.
Qed.

Lemma conversation_of_rows_shape_witness :
  let a := [("user", "hello"); ("assistant", "fine")] in
  conversation_of_rows (PyList sample_rows) = Some a
  ∧ conversation_of_rows (PyList []) = Some []
  ∧ Forall (λ m, (m.1 = "user" ∨ m.1 = "assistant")
                 ∧ m.2 ≠ EmptyString
                 ∧ stripped (list_ascii_of_string m.2)) a
  ∧ (length a ≤ length sample_rows)%nat
  ∧ conversation_of_rows (PyList (sample_rows ++ [])) = Some ([] ++ a)%list.
Proof.
  intros a.
  assert (H1 : conversation_of_rows (PyList sample_rows) = Some a)
    by (vm_compute; reflexivity).
  assert (H2 : conversation_of_rows (PyList []) = Some []) by reflexivity.
  split; [exact H1|]. split; [exact H2|].
  exact (conversation_of_rows_shape sample_rows [] a [] H1 H2).
Defined.

(** * The scorer in binary64 *)

(** ** Dicts in insertion order *)

Lemma od_get_set {V} (k : string) (v : V) (d : list (string * V)) (k' : string) :
  B64.od_get (B64.od_set k v d) k' = if decide (k = k') then Some v else B64.od_get d k'.
Proof.
  induction d as [|[k0 v0] d IH]; cbn [B64.od_set B64.od_get].
  - done.
  - destruct (decide (k0 = k)) as [->|Hne]; cbn [B64.od_get].
    + by destruct (decide (k = k')).
    + destruct (decide (k0 = k')) as [->|Hne'].
      * by rewrite decide_False by done.
      * exact IH.
Qed.

Lemma od_set_keys {V} (k : string) (v : V) (d : list (string * V)) :
  (B64.od_set k v d).*1 = if decide (k ∈ d.*1) then d.*1 else (d.*1 ++ [k])%list.
Proof.
  induction d as [|[k0 v0] d IH]; cbn [B64.od_set].
  - rewrite decide_False; [done|]. cbn. by intros ?%elem_of_nil.
  - rewrite !fmap_cons. cbn [fst].
    destruct (decide (k0 = k)) as [->|Hne].
    + rewrite fmap_cons, decide_True; [done | by left].
    + rewrite fmap_cons, IH. cbn [fst].
      destruct (decide (k ∈ d.*1)) as [Hin|Hnin].
      * rewrite decide_True; [done | by right].
      * rewrite decide_False; [done|].
        intros [?|?]%elem_of_cons; [by subst | done].
Qed.

Lemma od_get_is_Some {V} (d : list (string * V)) (k : string) :
  is_Some (B64.od_get d k) ↔ k ∈ d.*1.
Proof.
  induction d as [|[k0 v0] d IH]; cbn [B64.od_get].
  - split; [by intros [? ?] | by intros ?%elem_of_nil].
  - rewrite fmap_cons. cbn [fst]. destruct (decide (k0 = k)) as [->|Hne].
    + split; [intros _; by left | by eauto].
    + rewrite IH. split; [by right|].
      intros [?|?]%elem_of_cons; [by subst | done].
Qed.

Lemma first_seen_fold (l acc : list string) (k : string) :
  k ∈ foldl (λ acc s, if decide (s ∈ acc) then acc else (acc ++ [s])%list) acc l
  ↔ k ∈ acc ∨ k ∈ l.
Proof.
  revert acc. induction l as [|s l IH]; intros acc; cbn [foldl].
  - split; [by left | by intros [?|?%elem_of_nil]].
  - rewrite IH. destruct (decide (s ∈ acc)) as [Hin|Hnin].
    + rewrite elem_of_cons. split; [tauto | intros [?|[->|?]]; tauto].
    + rewrite elem_of_app, !elem_of_cons, elem_of_nil. tauto.
Qed.

Lemma first_seen_elem (l : list string) (k : string) : k ∈ B64.first_seen l ↔ k ∈ l.
Proof.
  unfold B64.first_seen. rewrite first_seen_fold.
  split; [by intros [?%elem_of_nil|?] | by right].
Qed.

(** A fold that fills a dict with [f s] under every [s]. *)
Lemma od_fill_get {V} (f : string → V) (l : list string) (d : list (string * V)) (k : string) :
  B64.od_get (foldl (λ d s, B64.od_set s (f s) d) d l) k
  = if decide (k ∈ l) then Some (f k) else B64.od_get d k.
Proof.
  revert d. induction l as [|s l IH]; intros d; cbn [foldl].
  - rewrite decide_False; [done | by intros ?%elem_of_nil].
  - rewrite IH, od_get_set.
    destruct (decide (k ∈ l)) as [Hin|Hnin].
    + rewrite decide_True; [done | by right].
    + destruct (decide (s = k)) as [->|Hne].
      * rewrite decide_True; [done | by left].
      * rewrite decide_False; [done|].
        intros [?|?]%elem_of_cons; [by subst | done].
Qed.

Lemma od_fill_keys {V} (f : string → V) (l : list string) (d : list (string * V)) :
  (foldl (λ d s, B64.od_set s (f s) d) d l).*1
  = foldl (λ acc s, if decide (s ∈ acc) then acc else (acc ++ [s])%list) d.*1 l.
Proof.
  revert d. induction l as [|s l IH]; intros d; cbn [foldl]; [done|].
  by rewrite IH, od_set_keys.
Qed.

Lemma to_dict_fill (g : string → B64.float) (stgs : list string) :
  B64.to_dict stgs (g <$> stgs) = foldl (λ d s, B64.od_set s (g s) d) [] stgs.
Proof.
  unfold B64.to_dict. generalize (@nil (string * B64.float)).
  induction stgs as [|s stgs IH]; intros d; [done|].
  rewrite fmap_cons. cbn [zip zip_with foldl fst snd]. apply IH.
Qed.

(** ** The accumulated scores *)

Lemma float_of_int_Some (v : Z) (f : B64.float) :
  B64.float_of_int v = Some f → f = B64.round_int v.
Proof.
  unfold B64.float_of_int. destruct (B64.round_int v); by intros [= <-].
Qed.

Lemma foldl_bind_None {A B} (f : A → B → option A) (l : list B) :
  foldl (λ acc x, a ← acc; f a x) None l = None.
Proof. induction l as [|x l IH]; [done | exact IH]. Qed.

Lemma add_answer_Some (stgs : list string) (q : B64.Question) (v : Z) (fv : B64.float)
    (d : list (string * B64.float)) :
  B64.float_of_int v = Some fv →
  B64.add_answer stgs q v d = Some (B64.add_rounded stgs q fv d).
Proof.
  intros Hv. unfold B64.add_answer, B64.add_rounded. rewrite Hv. revert d.
  induction stgs as [|s stgs IH]; intros d; cbn [foldl]; [done|].
  cbn [mbind option_bind]. apply IH.
Qed.

Lemma add_answer_None (stgs : list string) (q : B64.Question) (v : Z)
    (d : list (string * B64.float)) :
  B64.float_of_int v = None → stgs ≠ [] → B64.add_answer stgs q v d = None.
Proof.
  intros Hv Hne. destruct stgs as [|s stgs]; [done|].
  unfold B64.add_answer. rewrite Hv. cbn [foldl mbind option_bind].
  apply (foldl_bind_None (λ _ _, None)).
Qed.

Lemma add_rounded_keys (stgs : list string) (q : B64.Question) (fv : B64.float)
    (d : list (string * B64.float)) :
  (∀ s, s ∈ stgs → s ∈ d.*1) → (B64.add_rounded stgs q fv d).*1 = d.*1.
Proof.
  unfold B64.add_rounded. revert d.
  induction stgs as [|s stgs IH]; intros d Hk; cbn [foldl]; [done|].
  assert (Hs : s ∈ d.*1) by (apply Hk; by left).
  assert (Hd : (B64.od_set s (B64.add (B64.item d s) (B64.mul (B64.weight q s) fv)) d).*1 = d.*1).
  { rewrite od_set_keys. by rewrite decide_True. }
  rewrite IH; [done|]. intros s' Hs'. rewrite Hd. apply Hk. by right.
Qed.

Lemma add_rounded_get (stgs : list string) (q : B64.Question) (fv : B64.float)
    (d : list (string * B64.float)) (s : string) :
  NoDup stgs →
  B64.od_get (B64.add_rounded stgs q fv d) s
  = if decide (s ∈ stgs)
    then Some (B64.add (B64.item d s) (B64.mul (B64.weight q s) fv))
    else B64.od_get d s.
Proof.
  unfold B64.add_rounded. intros Hnd. revert d.
  induction Hnd as [|s0 stgs Hnin Hnd IH]; intros d; cbn [foldl].
  - rewrite decide_False; [done | by intros ?%elem_of_nil].
  - rewrite IH. destruct (decide (s ∈ stgs)) as [Hin|Hnin'].
    + rewrite decide_True by (by right).
      unfold B64.item at 1. rewrite od_get_set.
      rewrite decide_False; [done | by intros ->].
    + rewrite od_get_set. destruct (decide (s0 = s)) as [->|Hne].
      * rewrite decide_True; [done | by left].
      * rewrite decide_False; [done|].
        intros [?|?]%elem_of_cons; [by subst | done].
Qed.

Lemma init_scores_get (stgs : list string) (s : string) :
  B64.od_get (B64.init_scores stgs) s = if decide (s ∈ stgs) then Some B64.zero else None.
Proof. unfold B64.init_scores. by rewrite (od_fill_get (λ _, B64.zero)). Qed.

Lemma init_scores_keys (stgs : list string) : (B64.init_scores stgs).*1 = B64.first_seen stgs.
Proof. unfold B64.init_scores. by rewrite (od_fill_keys (λ _, B64.zero)). Qed.

Lemma answers_cons (q : B64.Question) (qs : list B64.Question) (c : B64.Config)
    (signals : gmap string (option Z)) :
  omap (λ q, pair q <$> sig_get signals (B64.qid q)) (q :: qs)
  = match sig_get signals (B64.qid q) with
    | Some v => (q, v) :: omap (λ q, pair q <$> sig_get signals (B64.qid q)) qs
    | None => omap (λ q, pair q <$> sig_get signals (B64.qid q)) qs
    end.
Proof. cbn [omap list_omap]. by destruct (sig_get signals (B64.qid q)). Qed.

(** The outer loop from any dict [d] that holds every stage: it ends
    without error when every answer converts, keeps the keys, and leaves
    under a stage the accumulated sum that started from [d]'s value. *)
Lemma score_loop (stgs : list string) (signals : gmap string (option Z))
    (qs : list B64.Question) (d : list (string * B64.float)) :
  NoDup stgs → (∀ s, s ∈ stgs → s ∈ d.*1) →
  Forall (λ qv : B64.Question * Z, is_Some (B64.float_of_int qv.2))
         (omap (λ q, pair q <$> sig_get signals (B64.qid q)) qs) →
  ∃ sc, foldl (B64.score_step stgs signals) (Some d) qs = Some sc
        ∧ sc.*1 = d.*1
        ∧ ∀ s, s ∈ stgs →
            B64.od_get sc s
            = Some (foldl (λ acc qv, B64.add acc (B64.mul (B64.weight qv.1 s) (B64.round_int qv.2)))
                          (B64.item d s)
                          (omap (λ q, pair q <$> sig_get signals (B64.qid q)) qs)).
Proof.
  intros Hnd. revert d. induction qs as [|q qs IH]; intros d Hk Hconv.
  - exists d. split; [done|]. split; [done|]. intros s Hs. cbn [omap list_omap foldl].
    unfold B64.item. apply Hk, od_get_is_Some in Hs as [x Hx]. by rewrite Hx.
  - cbn [foldl]. unfold B64.score_step at 2. cbn [mbind option_bind].
    rewrite (answers_cons q qs (B64.mkConfig None [] None [])) in *.
    destruct (sig_get signals (B64.qid q)) as [v|] eqn:Ev.
    + apply Forall_cons in Hconv as [[fv Hfv] Hconv]. cbn [snd] in Hfv.
      rewrite (add_answer_Some _ _ _ fv) by done.
      destruct (IH (B64.add_rounded stgs q fv d)) as (sc & Hsc & Hkeys & Hget).
      { intros s Hs. rewrite add_rounded_keys by done. by apply Hk. }
      { done. }
      exists sc. split; [done|]. split.
      { rewrite Hkeys. by apply add_rounded_keys. }
      intros s Hs. rewrite (Hget s Hs). cbn [foldl fst snd]. do 2 f_equal.
      unfold B64.item at 1. rewrite add_rounded_get, decide_True by done.
      cbn. by rewrite (float_of_int_Some v fv Hfv).
    + apply IH; done.
Qed.

Lemma add_answer_keys (stgs : list string) (q : B64.Question) (v : Z)
    (d d' : list (string * B64.float)) :
  (∀ s, s ∈ stgs → s ∈ d.*1) → B64.add_answer stgs q v d = Some d' → d'.*1 = d.*1.
Proof.
  intros Hk. destruct (B64.float_of_int v) as [fv|] eqn:Ev.
  - rewrite (add_answer_Some _ _ _ fv) by done. intros [= <-]. by apply add_rounded_keys.
  - destruct stgs as [|s stgs]; [by intros [= <-]|].
    by rewrite add_answer_None.
Qed.

Lemma score_loop_keys (stgs : list string) (signals : gmap string (option Z))
    (qs : list B64.Question) (d sc : list (string * B64.float)) :
  (∀ s, s ∈ stgs → s ∈ d.*1) →
  foldl (B64.score_step stgs signals) (Some d) qs = Some sc → sc.*1 = d.*1.
Proof.
  revert d. induction qs as [|q qs IH]; intros d Hk; cbn [foldl]; [by intros [= <-]|].
  unfold B64.score_step at 2. cbn [mbind option_bind].
  destruct (sig_get signals (B64.qid q)) as [v|]; [|by apply IH].
  destruct (B64.add_answer stgs q v d) as [d'|] eqn:Ed.
  - pose proof (add_answer_keys _ _ _ _ _ Hk Ed) as Hd. intros Hsc.
    rewrite <- Hd. apply IH; [|done]. intros s Hs. rewrite Hd. by apply Hk.
  - intros Hsc. exfalso. revert Hsc. clear.
    assert (H : foldl (B64.score_step stgs signals) None qs = None).
    { induction qs as [|q' qs IH]; [done | exact IH]. }
    by rewrite H.
Qed.

Lemma raw_scores_keys (cfg : B64.Config) (signals : gmap string (option Z))
    (sc : list (string * B64.float)) :
  B64.raw_scores cfg signals = Some sc → sc.*1 = B64.first_seen (B64.stages cfg).
Proof.
  intros H. rewrite <- init_scores_keys.
  apply (score_loop_keys (B64.stages cfg) signals (B64.questions cfg)); [|done].
  intros s Hs. rewrite init_scores_keys. by apply first_seen_elem.
Qed.

Lemma raw_scores_spec64 (cfg : B64.Config) (signals : gmap string (option Z)) :
  NoDup (B64.stages cfg) → B64.convertible cfg signals →
  ∃ sc, B64.raw_scores cfg signals = Some sc
        ∧ ∀ s, s ∈ B64.stages cfg → B64.od_get sc s = Some (B64.raw_score_spec cfg signals s).
Proof.
  intros Hnd Hconv.
  destruct (score_loop (B64.stages cfg) signals (B64.questions cfg)
              (B64.init_scores (B64.stages cfg)) Hnd) as (sc & Hsc & _ & Hget).
  { intros s Hs. rewrite init_scores_keys. by apply first_seen_elem. }
  { exact Hconv. }
  exists sc. split; [exact Hsc|]. intros s Hs. rewrite (Hget s Hs).
  unfold B64.raw_score_spec, B64.answers, B64.item.
  by rewrite init_scores_get, decide_True.
Qed.

(** ** The probabilities *)

Lemma py_max_zero (x : B64.float) :
  B64.py_max x B64.zero = if B64.negative x then B64.zero else x.
Proof. by destruct x as [[]|[]| |[] m e]. Qed.

Lemma normalise_clamped64 (np_sum : list B64.float → B64.float) (stgs : list string)
    (sc : list (string * B64.float)) :
  let total := np_sum (B64.clamped stgs sc) in
  B64.normalise np_sum (B64.clamped stgs sc)
  = (λ s, let c := B64.py_max (B64.item sc s) B64.zero in
          if B64.gt total B64.zero then B64.div c total else c) <$> stgs.
Proof.
  intros total. unfold B64.normalise. fold total.
  destruct (B64.gt total B64.zero); [|done].
  unfold B64.clamped. by rewrite <- list_fmap_compose.
Qed.

Lemma probs_get (np_sum : list B64.float → B64.float) (cfg : B64.Config)
    (signals : gmap string (option Z)) (r : B64.Assessment) (s : string) :
  B64.assess_stage np_sum cfg signals = Some r →
  let total := np_sum (B64.clamped (B64.stages cfg) (B64.scores r)) in
  let c := B64.py_max (B64.item (B64.scores r) s) B64.zero in
  B64.od_get (B64.probs r) s
  = if decide (s ∈ B64.stages cfg)
    then Some (if B64.gt total B64.zero then B64.div c total else c)
    else None.
Proof.
  unfold B64.assess_stage.
  destruct (B64.raw_scores cfg signals) as [sc|]; [|done].
  cbn [mbind option_bind]. intros [= <-]. cbn [B64.probs B64.scores].
  rewrite normalise_clamped64, to_dict_fill.
  by rewrite (od_fill_get (λ s, let c := B64.py_max (B64.item sc s) B64.zero in
     if B64.gt (np_sum (B64.clamped (B64.stages cfg) sc)) B64.zero
     then B64.div c (np_sum (B64.clamped (B64.stages cfg) sc)) else c)).
Qed.

Lemma probs_keys (np_sum : list B64.float → B64.float) (cfg : B64.Config)
    (signals : gmap string (option Z)) (r : B64.Assessment) :
  B64.assess_stage np_sum cfg signals = Some r →
  (B64.probs r).*1 = B64.first_seen (B64.stages cfg).
Proof.
  unfold B64.assess_stage.
  destruct (B64.raw_scores cfg signals) as [sc|]; [|done].
  cbn [mbind option_bind]. intros [= <-]. cbn [B64.probs].
  rewrite normalise_clamped64, to_dict_fill.
  by rewrite (od_fill_keys (λ s, let c := B64.py_max (B64.item sc s) B64.zero in
     if B64.gt (np_sum (B64.clamped (B64.stages cfg) sc)) B64.zero
     then B64.div c (np_sum (B64.clamped (B64.stages cfg) sc)) else c)).
Qed.

Lemma div_zero_positive (x t : B64.float) :
  B64.is_zero x = true → B64.gt t B64.zero = true → B64.is_zero (B64.div x t) = true.
Proof. by destruct x as [[]|[]| |[] mx ex], t as [[]|[]| |[] mt et]. Qed.

(** C1: for a config whose stage codes are pairwise distinct and a signal
    map whose answers convert to float, [assess_stage] returns; the raw
    score of a declared stage is the binary64 sum, accumulated from 0.0 in
    question order over the answered questions, of the binary64 products
    [weight * float(v)]; the clamped score is 0.0 for a score below zero
    and the score itself otherwise; and the probability is the clamped
    score divided in binary64 by numpy's sum of the clamped scores when
    that sum is [> 0], and the clamped score unchanged otherwise; when
    every clamped score is a zero, so is every probability. *)
Theorem assess_stage_scores_and_probs (np_sum : list B64.float → B64.float)
    (cfg : B64.Config) (signals : gmap string (option Z)) :
  NoDup (B64.stages cfg) → B64.convertible cfg signals →
  ∃ r, B64.assess_stage np_sum cfg signals = Some r
       ∧ let score := B64.raw_score_spec cfg signals in
         let clamped s := B64.py_max (score s) B64.zero in
         let total := np_sum (clamped <$> B64.stages cfg) in
         (∀ s, s ∈ B64.stages cfg →
            B64.od_get (B64.scores r) s = Some (score s)
            ∧ clamped s = (if B64.negative (score s) then B64.zero else score s)
            ∧ B64.od_get (B64.probs r) s
              = Some (if B64.gt total B64.zero then B64.div (clamped s) total else clamped s))
         ∧ ((∀ s, s ∈ B64.stages cfg → B64.is_zero (clamped s) = true) →
            ∀ s, s ∈ B64.stages cfg →
              ∃ p, B64.od_get (B64.probs r) s = Some p ∧ B64.is_zero p = true).
Proof.
  intros Hnd Hconv.
  destruct (raw_scores_spec64 cfg signals Hnd Hconv) as (sc & Hsc & Hget).
  destruct (B64.assess_stage np_sum cfg signals) as [r|] eqn:Er.
  2: { unfold B64.assess_stage in Er. by rewrite Hsc in Er. }
  assert (Hr : B64.scores r = sc).
  { unfold B64.assess_stage in Er. rewrite Hsc in Er. cbn [mbind option_bind] in Er.
    by injection Er as <-. }
  exists r. split; [done|]. intros score clamped total.
  assert (Hitem : ∀ s', s' ∈ B64.stages cfg → B64.item sc s' = score s').
  { intros s' Hs'. unfold B64.item. by rewrite (Hget s' Hs'). }
  assert (Hvec : B64.clamped (B64.stages cfg) sc = clamped <$> B64.stages cfg).
  { unfold B64.clamped. apply Forall_fmap_ext_1, Forall_forall.
    intros s' Hs'. unfold clamped. by rewrite Hitem. }
  assert (Hprob : ∀ s, s ∈ B64.stages cfg →
            B64.od_get (B64.probs r) s
            = Some (if B64.gt total B64.zero then B64.div (clamped s) total else clamped s)).
  { intros s Hs. rewrite (probs_get np_sum cfg signals r s Er), decide_True by done.
    rewrite Hr, Hvec. fold total. by rewrite (Hitem s Hs). }
  split.
  - intros s Hs. split; [by rewrite Hr, (Hget s Hs)|]. split; [apply py_max_zero|].
    by apply Hprob.
  - intros Hz s Hs. eexists. split; [by apply Hprob|].
    destruct (B64.gt total B64.zero) eqn:Et; [|by apply Hz].
    apply div_zero_positive; [by apply Hz | done].
Qed.

(** Only [Q11] answered, with 2, on the shipped configuration. *)
Lemma assess_stage_scores_and_probs_witness :
  NoDup (B64.stages shipped) ∧ B64.convertible shipped q11_signals
  ∧ ∃ r, B64.assess_stage B64.seq_sum shipped q11_signals = Some r
       ∧ let score := B64.raw_score_spec shipped q11_signals in
         let clamped s := B64.py_max (score s) B64.zero in
         let total := B64.seq_sum (clamped <$> B64.stages shipped) in
         (∀ s, s ∈ B64.stages shipped →
            B64.od_get (B64.scores r) s = Some (score s)
            ∧ clamped s = (if B64.negative (score s) then B64.zero else score s)
            ∧ B64.od_get (B64.probs r) s
              = Some (if B64.gt total B64.zero then B64.div (clamped s) total else clamped s))
         ∧ ((∀ s, s ∈ B64.stages shipped → B64.is_zero (clamped s) = true) →
            ∀ s, s ∈ B64.stages shipped →
              ∃ p, B64.od_get (B64.probs r) s = Some p ∧ B64.is_zero p = true).
Proof.
  assert (H1 : NoDup (B64.stages shipped)) by by_compute.
  assert (H2 : B64.convertible shipped q11_signals).
  { vm_compute. repeat constructor. by eexists. }
  split; [exact H1|]. split; [exact H2|].
  exact (assess_stage_scores_and_probs B64.seq_sum shipped q11_signals H1 H2).
Defined.

(** ** Comparing floats *)

Lemma SFcompare_antisym (x y : spec_float) :
  SFcompare y x = CompOpp <$> SFcompare x y.
Proof.
  destruct x as [[]|[]| |[] mx ex], y as [[]|[]| |[] my ey]; try reflexivity;
    cbn [SFcompare fmap option_fmap option_map];
    rewrite (Z.compare_antisym ey ex);
    destruct (Z.compare ey ex); cbn [CompOpp]; try reflexivity;
    change (Pos.compare_cont Eq) with Pos.compare;
    by rewrite (Pos.compare_antisym mx my).
Qed.

Lemma SFcompare_None (x y : spec_float) :
  SFcompare x y = None ↔ B64.is_nan x = true ∨ B64.is_nan y = true.
Proof.
  destruct x as [[]|[]| |[] mx ex], y as [[]|[]| |[] my ey]; cbn;
    (split; [intros H; first [discriminate H | eauto]
            | intros [H|H]; first [discriminate H | reflexivity]]).
Qed.

Lemma ge_false_lt (a b : B64.float) :
  B64.is_nan a = false → B64.is_nan b = false →
  B64.ge a b = false → B64.gt b a = true.
Proof.
  intros Ha Hb. unfold B64.ge, B64.gt, SFleb, SFltb.
  rewrite (SFcompare_antisym a b).
  destruct (SFcompare a b) as [[]|] eqn:E; cbn; try done.
  apply SFcompare_None in E as [E|E]; congruence.
Qed.

Lemma gt_ge_false (a b : B64.float) : B64.gt b a = true → B64.ge a b = false.
Proof.
  unfold B64.ge, B64.gt, SFleb, SFltb. rewrite (SFcompare_antisym a b).
  by destruct (SFcompare a b) as [[]|].
Qed.

Lemma gt_ge (a b : B64.float) : B64.gt a b = true → B64.ge a b = true.
Proof. unfold B64.ge, B64.gt, SFleb, SFltb. by destruct (SFcompare b a) as [[]|]. Qed.

Lemma ge_not_nan (a b : B64.float) :
  B64.ge a b = true → B64.is_nan a = false ∧ B64.is_nan b = false.
Proof.
  unfold B64.ge, SFleb. destruct (SFcompare b a) as [c|] eqn:E; [|done]. intros _.
  destruct a, b; try done.
Qed.

Lemma ge_refl (a : B64.float) : B64.is_nan a = false → B64.ge a a = true.
Proof.
  unfold B64.ge, SFleb. destruct a as [[]|[]| |[] m e]; try done; intros _;
    cbn [SFcompare]; rewrite Z.compare_refl, Pos.compare_cont_refl; done.
Qed.

Lemma SFleb_trans (x y z : spec_float) :
  SFleb x y = true → SFleb y z = true → SFleb x z = true.
Proof.
  unfold SFleb.
  destruct x as [[]|[]| |[] mx ex], y as [[]|[]| |[] my ey], z as [[]|[]| |[] mz ez];
    cbn [SFcompare]; try done;
    change (Pos.compare_cont Eq) with Pos.compare;
    destruct (Z.compare_spec ex ey), (Z.compare_spec ey ez), (Z.compare_spec ex ez);
    try done; try lia; subst;
    destruct (Pos.compare_spec mx my), (Pos.compare_spec my mz), (Pos.compare_spec mx mz);
    cbn [CompOpp]; try done; try lia.
Qed.

Lemma ge_trans (a b c : B64.float) :
  B64.ge a b = true → B64.ge b c = true → B64.ge a c = true.
Proof. unfold B64.ge. intros H1 H2. by apply (SFleb_trans c b a). Qed.

(** ** Maximum of a sequence *)

Lemma py_max_cases64 (a b : B64.float) : B64.py_max a b = a ∨ B64.py_max a b = b.
Proof. unfold B64.py_max. destruct (B64.gt b a); eauto. Qed.

Lemma py_max_ge64 (a b : B64.float) :
  B64.is_nan a = false → B64.is_nan b = false →
  B64.ge (B64.py_max a b) a = true ∧ B64.ge (B64.py_max a b) b = true.
Proof.
  intros Ha Hb. unfold B64.py_max. destruct (B64.gt b a) eqn:E.
  - split; [by apply gt_ge | by apply ge_refl].
  - split; [by apply ge_refl|].
    destruct (B64.ge a b) eqn:E'; [done|].
    by rewrite (ge_false_lt a b Ha Hb E') in E.
Qed.

Lemma foldl_py_max_in64 (l : list B64.float) (a : B64.float) :
  foldl B64.py_max a l ∈ a :: l.
Proof.
  revert a. induction l as [|x l IH]; intros a; cbn [foldl]; [by left|].
  specialize (IH (B64.py_max a x)). apply elem_of_cons in IH as [->|IH].
  - destruct (py_max_cases64 a x) as [->| ->]; [by left | right; by left].
  - right. by right.
Qed.

Lemma foldl_py_max_ge64 (l : list B64.float) (a : B64.float) :
  B64.is_nan a = false → Forall (λ p, B64.is_nan p = false) l →
  Forall (λ p, B64.ge (foldl B64.py_max a l) p = true) (a :: l).
Proof.
  intros Ha Hl. revert a Ha. induction Hl as [|x l Hx Hl IH]; intros a Ha; cbn [foldl].
  - constructor; [by apply ge_refl | constructor].
  - destruct (py_max_ge64 a x Ha Hx) as [H1 H2].
    assert (Hm : B64.is_nan (B64.py_max a x) = false).
    { by destruct (py_max_cases64 a x) as [->| ->]. }
    specialize (IH _ Hm). apply Forall_cons in IH as [H0 IH].
    constructor; [by apply (ge_trans _ (B64.py_max a x))|].
    constructor; [by apply (ge_trans _ (B64.py_max a x)) | done].
Qed.

Lemma max_of_in64 (l : list B64.float) : l ≠ [] → B64.max_of l ∈ l.
Proof. destruct l as [|x l]; [done|]. intros _. apply foldl_py_max_in64. Qed.

Lemma max_of_ge64 (l : list B64.float) :
  Forall (λ p, B64.is_nan p = false) l → Forall (λ p, B64.ge (B64.max_of l) p = true) l.
Proof.
  destruct l as [|x l]; [constructor|]. intros [Hx Hl]%Forall_cons.
  by apply foldl_py_max_ge64.
Qed.

(** ** Confidence *)

Lemma conf_label_high64 (x : B64.float) :
  B64.conf_label x = "high" ↔ B64.ge x B64.c0_75 = true.
Proof.
  unfold B64.conf_label. destruct (B64.ge x B64.c0_75); [done|].
  by destruct (B64.ge x B64.c0_45).
Qed.

Lemma conf_label_medium64 (x : B64.float) :
  B64.conf_label x = "medium" ↔ B64.ge x B64.c0_45 = true ∧ B64.gt B64.c0_75 x = true.
Proof.
  unfold B64.conf_label. destruct (B64.ge x B64.c0_75) eqn:E1.
  - split; [done|]. intros [_ H]. by rewrite (gt_ge_false _ _ H) in E1.
  - destruct (B64.ge x B64.c0_45) eqn:E2; [|split; [done | by intros [? _]]].
    split; [|done]. intros _. split; [done|].
    apply ge_false_lt; [by apply (ge_not_nan _ _ E2) | done | done].
Qed.

Lemma below_0_45 (x : B64.float) : B64.gt B64.c0_45 x = true → B64.ge x B64.c0_75 = false.
Proof.
  intros H. destruct (B64.ge x B64.c0_75) eqn:E; [|done].
  assert (H' : B64.ge x B64.c0_45 = true).
  { apply (ge_trans _ B64.c0_75); [done | reflexivity]. }
  by rewrite (gt_ge_false _ _ H) in H'.
Qed.

Lemma conf_label_low64 (x : B64.float) :
  B64.conf_label x = "low" ↔ B64.gt B64.c0_45 x = true ∨ B64.is_nan x = true.
Proof.
  unfold B64.conf_label. split.
  - destruct (B64.ge x B64.c0_75) eqn:E1; [done|].
    destruct (B64.ge x B64.c0_45) eqn:E2; [done|]. intros _.
    destruct (B64.is_nan x) eqn:En; [by right|]. left.
    by apply ge_false_lt.
  - intros [H| H].
    + by rewrite (below_0_45 x H), (gt_ge_false _ _ H).
    + by destruct x.
Qed.

Lemma assess_stage_conf (np_sum : list B64.float → B64.float) (cfg : B64.Config)
    (signals : gmap string (option Z)) (r : B64.Assessment) :
  B64.assess_stage np_sum cfg signals = Some r →
  B64.conf r
  = B64.conf_label (B64.add (B64.mul B64.c0_6 (B64.dominance_of (B64.probs r)))
                            (B64.mul B64.c0_4 (B64.coverage r))).
Proof.
  unfold B64.assess_stage. destruct (B64.raw_scores cfg signals) as [sc|]; [|done].
  cbn [mbind option_bind]. by intros [= <-].
Qed.

(** C2: the label [assess_stage] returns is the label of the binary64
    value [0.6 * dominance + 0.4 * coverage], where the dominance is
    Python's [max] over the probabilities in stage order (0.0 when there
    is none; one of the probabilities otherwise, and at least every one
    of them when none is NaN); the label is "high" exactly when the score
    is [>= 0.75], "medium" exactly when it is [>= 0.45] and [< 0.75], and
    "low" exactly when it is [< 0.45] or NaN; a score of exactly 0.75
    gives "high" and one of exactly 0.45 gives "medium". *)
Theorem confidence_label_thresholds (np_sum : list B64.float → B64.float)
    (cfg : B64.Config) (signals : gmap string (option Z)) (r : B64.Assessment) :
  B64.assess_stage np_sum cfg signals = Some r →
  let dominance := B64.dominance_of (B64.probs r) in
  let score := B64.add (B64.mul B64.c0_6 dominance) (B64.mul B64.c0_4 (B64.coverage r)) in
  (B64.probs r = [] → dominance = B64.zero)
  ∧ (B64.probs r ≠ [] → dominance ∈ (B64.probs r).*2)
  ∧ (Forall (λ p, B64.is_nan p = false) (B64.probs r).*2 →
     Forall (λ p, B64.ge dominance p = true) (B64.probs r).*2)
  ∧ (B64.conf r = "high" ↔ B64.ge score B64.c0_75 = true)
  ∧ (B64.conf r = "medium" ↔ B64.ge score B64.c0_45 = true ∧ B64.gt B64.c0_75 score = true)
  ∧ (B64.conf r = "low" ↔ B64.gt B64.c0_45 score = true ∨ B64.is_nan score = true)
  ∧ B64.conf_label B64.c0_75 = "high"
  ∧ B64.conf_label B64.c0_45 = "medium".
Proof.
  intros Hr dominance score.
  rewrite (assess_stage_conf np_sum cfg signals r Hr). fold dominance. fold score.
  split; [intros H; unfold dominance; by rewrite H|]. split.
  { intros Hne. apply max_of_in64. by destruct (B64.probs r). }
  split; [apply max_of_ge64|].
  split; [apply conf_label_high64|].
  split; [apply conf_label_medium64|].
  split; [apply conf_label_low64|].
  by split.
Qed.

(** Only [Q11] answered, with 2, on the shipped configuration: all the
    mass on SA, coverage 1/20, label "medium". *)
Lemma confidence_label_thresholds_witness :
  let r := shipped_q11 in
  let dominance := B64.dominance_of (B64.probs r) in
  let score := B64.add (B64.mul B64.c0_6 dominance) (B64.mul B64.c0_4 (B64.coverage r)) in
  B64.assess_stage B64.seq_sum shipped q11_signals = Some r
  ∧ (B64.probs r = [] → dominance = B64.zero)
  ∧ (B64.probs r ≠ [] → dominance ∈ (B64.probs r).*2)
  ∧ (Forall (λ p, B64.is_nan p = false) (B64.probs r).*2 →
     Forall (λ p, B64.ge dominance p = true) (B64.probs r).*2)
  ∧ (B64.conf r = "high" ↔ B64.ge score B64.c0_75 = true)
  ∧ (B64.conf r = "medium" ↔ B64.ge score B64.c0_45 = true ∧ B64.gt B64.c0_75 score = true)
  ∧ (B64.conf r = "low" ↔ B64.gt B64.c0_45 score = true ∨ B64.is_nan score = true)
  ∧ B64.conf_label B64.c0_75 = "high"
  ∧ B64.conf_label B64.c0_45 = "medium".
Proof.
  assert (H : B64.assess_stage B64.seq_sum shipped q11_signals = Some shipped_q11)
    by (vm_compute; reflexivity).
  split; [exact H|].
  exact (confidence_label_thresholds B64.seq_sum shipped q11_signals shipped_q11 H).
Defined.

(** With the weight 1e308 on two stages and the answer 2 both scores are
    infinite, both probabilities NaN, and so are the dominance and the
    confidence score: the label is "low" although the score is not below
    0.45. *)
Lemma confidence_label_nan :
  ∃ r, B64.assess_stage B64.seq_sum huge_cfg (all_answered 1 2) = Some r
       ∧ let score := B64.add (B64.mul B64.c0_6 (B64.dominance_of (B64.probs r)))
                              (B64.mul B64.c0_4 (B64.coverage r)) in
         B64.conf r = "low"
         ∧ B64.gt B64.c0_45 score = false
         ∧ score = S754_nan.
Proof. eexists. split; [vm_compute; reflexivity|]. by vm_compute. Qed.

(** The thresholds are reached, and missed by rounding: with dominance 1
    and coverage 3/8 the score is exactly 0.75, with dominance 1/2 and
    coverage 3/8 exactly 0.45; on the shipped configuration twelve answers
    that give dominance 0.35 and coverage 0.6 score 0.44999999999999996,
    one unit in the last place below 0.45, and get "low". *)
Lemma confidence_boundaries_reached :
  let score r := B64.add (B64.mul B64.c0_6 (B64.dominance_of (B64.probs r)))
                         (B64.mul B64.c0_4 (B64.coverage r)) in
  (∃ r, B64.assess_stage B64.seq_sum (eight_questions ["A"]) three_answers = Some r
        ∧ score r = B64.c0_75 ∧ B64.conf r = "high")
  ∧ (∃ r, B64.assess_stage B64.seq_sum (eight_questions ["A"; "B"]) three_answers = Some r
          ∧ score r = B64.c0_45 ∧ B64.conf r = "medium")
  ∧ (∃ r, B64.assess_stage B64.seq_sum shipped twelve_signals = Some r
          ∧ B64.dominance_of (B64.probs r) = B64.literal 35 100
          ∧ B64.coverage r = B64.literal 6 10
          ∧ score r = S754_finite false 8106479329266892 (-54)
          ∧ B64.c0_45 = S754_finite false 8106479329266893 (-54)
          ∧ B64.conf r = "low").
Proof.
  repeat split; (eexists; split; [vm_compute; reflexivity|]); by vm_compute.
Qed.

(** ** The worked examples of the specification *)

(** Only [Q11] answered with 2: all the mass on SA, coverage 0.05,
    confidence score 0.62, label "medium"; and with no signal at all every
    score and probability is 0.0, the coverage 0.0 and the label "low". *)
Lemma worked_examples :
  B64.assess_stage B64.seq_sum shipped q11_signals = Some shipped_q11
  ∧ B64.probs shipped_q11
    = [("FS", B64.zero); ("HM", B64.zero); ("IC", B64.zero); ("SA", B64.round_int 1)]
  ∧ B64.coverage shipped_q11 = B64.literal 5 100
  ∧ B64.add (B64.mul B64.c0_6 (B64.dominance_of (B64.probs shipped_q11)))
            (B64.mul B64.c0_4 (B64.coverage shipped_q11)) = B64.literal 62 100
  ∧ B64.conf shipped_q11 = "medium"
  ∧ B64.assess_stage B64.seq_sum shipped ∅
    = Some (B64.mkAssessment ((λ s, (s, B64.zero)) <$> B64.stages shipped) "low"
                             ((λ s, (s, B64.zero)) <$> B64.stages shipped) B64.zero).
Proof. repeat split; vm_compute; reflexivity. Qed.

(** ** When [float(v)] fails *)

Lemma score_loop_None (stgs : list string) (signals : gmap string (option Z))
    (qs : list B64.Question) :
  foldl (B64.score_step stgs signals) None qs = None.
Proof. induction qs as [|q qs IH]; [done | exact IH]. Qed.

Lemma score_loop_raises (stgs : list string) (signals : gmap string (option Z))
    (qs : list B64.Question) (acc : option (list (string * B64.float))) :
  stgs ≠ [] →
  Exists (λ qv : B64.Question * Z, B64.float_of_int qv.2 = None)
         (omap (λ q, pair q <$> sig_get signals (B64.qid q)) qs) →
  foldl (B64.score_step stgs signals) acc qs = None.
Proof.
  intros Hne. revert acc. induction qs as [|q qs IH]; intros acc Hex.
  - by apply Exists_nil in Hex.
  - rewrite (answers_cons q qs (B64.mkConfig None [] None [])) in Hex. cbn [foldl].
    destruct acc as [d|]; [|apply score_loop_None].
    unfold B64.score_step at 2. cbn [mbind option_bind].
    destruct (sig_get signals (B64.qid q)) as [v|]; [|by apply IH].
    apply Exists_cons in Hex as [Hv|Hex]; [|by apply IH].
    cbn [snd] in Hv. rewrite add_answer_None by done. apply score_loop_None.
Qed.

(** With a stage to score and an answer that [float] cannot take,
    [assess_stage] ends in the [OverflowError]. *)
Lemma assess_stage_raises (np_sum : list B64.float → B64.float) (cfg : B64.Config)
    (signals : gmap string (option Z)) :
  B64.stages cfg ≠ [] → ¬ B64.convertible cfg signals →
  B64.assess_stage np_sum cfg signals = None.
Proof.
  intros Hne Hconv. unfold B64.assess_stage, B64.raw_scores.
  rewrite score_loop_raises; [done | done |].
  apply not_Forall_Exists in Hconv; [|apply _].
  eapply Exists_impl; [exact Hconv|]. intros qv Hqv. cbn in Hqv.
  by apply eq_None_not_Some.
Qed.

Lemma score_loop_returns (stgs : list string) (signals : gmap string (option Z))
    (qs : list B64.Question) (d : list (string * B64.float)) :
  Forall (λ qv : B64.Question * Z, is_Some (B64.float_of_int qv.2))
         (omap (λ q, pair q <$> sig_get signals (B64.qid q)) qs) →
  is_Some (foldl (B64.score_step stgs signals) (Some d) qs).
Proof.
  revert d. induction qs as [|q qs IH]; intros d Hconv; cbn [foldl]; [by eauto|].
  unfold B64.score_step at 2. cbn [mbind option_bind].
  rewrite (answers_cons q qs (B64.mkConfig None [] None [])) in Hconv.
  destruct (sig_get signals (B64.qid q)) as [v|]; [|by apply IH].
  apply Forall_cons in Hconv as [[fv Hfv] Hconv]. cbn [snd] in Hfv.
  rewrite (add_answer_Some _ _ _ fv) by done. by apply IH.
Qed.

Lemma score_loop_no_stage (signals : gmap string (option Z))
    (qs : list B64.Question) (d : list (string * B64.float)) :
  foldl (B64.score_step [] signals) (Some d) qs = Some d.
Proof.
  induction qs as [|q qs IH]; cbn [foldl]; [done|].
  unfold B64.score_step at 2. cbn [mbind option_bind].
  by destruct (sig_get signals (B64.qid q)).
Qed.

(** X18: [assess_stage] ends in the [OverflowError] exactly when the
    config declares a stage and some declared question carries an answer
    that [float] cannot take (an integer beyond the binary64 range);
    in every other case it returns. *)
Theorem assess_stage_overflow_iff (np_sum : list B64.float → B64.float) (cfg : B64.Config)
    (signals : gmap string (option Z)) :
  B64.assess_stage np_sum cfg signals = None
  ↔ B64.stages cfg ≠ [] ∧ ¬ B64.convertible cfg signals.
Proof.
  split.
  - intros Hnone. destruct (decide (B64.stages cfg = [])) as [He|Hne].
    + exfalso. unfold B64.assess_stage, B64.raw_scores in Hnone.
      rewrite He, score_loop_no_stage in Hnone. done.
    + split; [done|]. intros Hconv.
      destruct (score_loop_returns (B64.stages cfg) signals (B64.questions cfg)
                  (B64.init_scores (B64.stages cfg)) Hconv) as [sc Hsc].
      unfold B64.assess_stage, B64.raw_scores in Hnone. by rewrite Hsc in Hnone.
  - intros [Hne Hconv]. by apply assess_stage_raises.
Qed.

(** Four inputs on which the claim as the specification words it fails:
    a stage code listed twice gets every contribution twice (2.0 where
    the sum of [weight * v] is 1.0); the weights 2^53, 1 and -2^53, each
    answered 1, leave the score 0.0 and the probability 0.0 where the sum
    of [weight * v] in exact arithmetic is 1 and positive; with the
    weights 1e308 and -1e308 on stage B the score of B is NaN, numpy's sum
    is NaN and not [> 0], and the probability of A is its clamped score
    2.0, not 0; an answer of 2^1024 ends the call in the [OverflowError]. *)
Lemma assess_stage_score_counterexamples :
  (∃ r, B64.assess_stage B64.seq_sum twice_cfg (all_answered 1 1) = Some r
        ∧ B64.od_get (B64.scores r) "A" = Some (B64.round_int 2)
        ∧ B64.raw_score_spec twice_cfg (all_answered 1 1) "A" = B64.round_int 1)
  ∧ (∃ r, B64.assess_stage B64.seq_sum absorb_cfg (all_answered 3 1) = Some r
          ∧ (λ q, B64.weight q "A") <$> B64.questions absorb_cfg
            = B64.round_int <$> [2 ^ 53; 1; - 2 ^ 53]%Z
          ∧ (2 ^ 53 * 1 + 1 * 1 + - 2 ^ 53 * 1 = 1)%Z
          ∧ B64.od_get (B64.scores r) "A" = Some B64.zero
          ∧ B64.od_get (B64.probs r) "A" = Some B64.zero)
  ∧ (∃ r, B64.assess_stage B64.seq_sum clash_cfg (all_answered 2 2) = Some r
          ∧ B64.od_get (B64.scores r) "B" = Some S754_nan
          ∧ B64.gt (B64.seq_sum (B64.clamped (B64.stages clash_cfg) (B64.scores r)))
                   B64.zero = false
          ∧ B64.od_get (B64.probs r) "A" = Some (B64.round_int 2))
  ∧ B64.assess_stage B64.seq_sum clash_cfg (all_answered 2 (2 ^ 1024)) = None.
Proof.
  split; [|split; [|split]].
  - eexists. split; [vm_compute; reflexivity|]. by vm_compute.
  - eexists. split; [vm_compute; reflexivity|]. by vm_compute.
  - eexists. split; [vm_compute; reflexivity|]. by vm_compute.
  - by vm_compute.
Qed.

(** The probabilities on overflow.  With the weight 1e308 on two stages
    and the answer 1 both clamped scores are positive, their sum is
    infinite and both probabilities are 0.0; with the answer 2 the scores
    are infinite and both probabilities NaN; with the weights 1e308 and
    -1e308 meeting on stage B the probability of A is 2.0; with a stage
    code listed twice the one probability returned is 0.5. *)
Lemma probs_overflow_examples :
  (∃ r, B64.assess_stage B64.seq_sum huge_cfg (all_answered 1 1) = Some r
        ∧ Forall (λ s, B64.gt (B64.py_max (B64.item (B64.scores r) s) B64.zero) B64.zero = true)
                 (B64.stages huge_cfg)
        ∧ B64.probs r = [("A", B64.zero); ("B", B64.zero)])
  ∧ (∃ r, B64.assess_stage B64.seq_sum huge_cfg (all_answered 1 2) = Some r
          ∧ B64.probs r = [("A", S754_nan); ("B", S754_nan)])
  ∧ (∃ r, B64.assess_stage B64.seq_sum clash_cfg (all_answered 2 2) = Some r
          ∧ B64.probs r = [("A", B64.round_int 2); ("B", S754_nan)])
  ∧ (∃ r, B64.assess_stage B64.seq_sum twice_cfg (all_answered 1 1) = Some r
          ∧ B64.probs r = [("A", B64.literal 1 2)]).
Proof.
  split; [|split; [|split]].
  - eexists. split; [vm_compute; reflexivity|]. split; [|by vm_compute].
    vm_compute. by repeat constructor.
  - eexists. split; [vm_compute; reflexivity|]. by vm_compute.
  - eexists. split; [vm_compute; reflexivity|]. by vm_compute.
  - eexists. split; [vm_compute; reflexivity|]. by vm_compute.
Qed.

(** ** The keys of the two dicts *)

Lemma first_seen_NoDup (l : list string) : NoDup (B64.first_seen l).
Proof.
  unfold B64.first_seen.
  assert (H : ∀ acc, NoDup acc →
            NoDup (foldl (λ acc s, if decide (s ∈ acc) then acc else (acc ++ [s])%list) acc l)).
  { induction l as [|s l IH]; intros acc Hacc; cbn [foldl]; [done|].
    apply IH. destruct (decide (s ∈ acc)); [done|].
    apply NoDup_app. split; [done|]. split; [|apply NoDup_singleton].
    intros x Hx ->%list_elem_of_singleton. done. }
  apply H, NoDup_nil_2.
Qed.

Lemma scores_of_assessment (np_sum : list B64.float → B64.float) (cfg : B64.Config)
    (signals : gmap string (option Z)) (r : B64.Assessment) :
  B64.assess_stage np_sum cfg signals = Some r →
  B64.raw_scores cfg signals = Some (B64.scores r).
Proof.
  unfold B64.assess_stage. destruct (B64.raw_scores cfg signals) as [sc|]; [|done].
  cbn [mbind option_bind]. by intros [= <-].
Qed.

(** X3: whenever [assess_stage] returns, for every config, also one that
    repeats a stage code, the score dict and the probability dict hold
    the declared stage codes and nothing else as keys, each code once, in
    the order in which the codes first occur in the stage list. *)
Theorem assess_stage_keys (np_sum : list B64.float → B64.float) (cfg : B64.Config)
    (signals : gmap string (option Z)) (r : B64.Assessment) :
  B64.assess_stage np_sum cfg signals = Some r →
  (B64.scores r).*1 = B64.first_seen (B64.stages cfg)
  ∧ (B64.probs r).*1 = B64.first_seen (B64.stages cfg)
  ∧ NoDup (B64.first_seen (B64.stages cfg))
  ∧ ∀ s, (is_Some (B64.od_get (B64.scores r) s) ↔ s ∈ B64.stages cfg)
         ∧ (is_Some (B64.od_get (B64.probs r) s) ↔ s ∈ B64.stages cfg).
Proof.
  intros Hr.
  pose proof (raw_scores_keys cfg signals _ (scores_of_assessment _ _ _ _ Hr)) as Hs.
  pose proof (probs_keys np_sum cfg signals r Hr) as Hp.
  split; [done|]. split; [done|]. split; [apply first_seen_NoDup|].
  intros s. rewrite !od_get_is_Some, Hs, Hp. split; apply first_seen_elem.
Qed.

(** Stage A listed twice: one key in each dict. *)
Lemma assess_stage_keys_witness :
  let r := B64.mkAssessment [("A", B64.literal 1 2)] "medium" [("A", B64.round_int 2)]
                            (B64.round_int 1) in
  B64.assess_stage B64.seq_sum twice_cfg (all_answered 1 1) = Some r
  ∧ B64.stages twice_cfg = ["A"; "A"]
  ∧ (B64.scores r).*1 = B64.first_seen (B64.stages twice_cfg)
  ∧ (B64.probs r).*1 = B64.first_seen (B64.stages twice_cfg)
  ∧ NoDup (B64.first_seen (B64.stages twice_cfg))
  ∧ ∀ s, (is_Some (B64.od_get (B64.scores r) s) ↔ s ∈ B64.stages twice_cfg)
         ∧ (is_Some (B64.od_get (B64.probs r) s) ↔ s ∈ B64.stages twice_cfg).
Proof.
  intros r.
  assert (H : B64.assess_stage B64.seq_sum twice_cfg (all_answered 1 1) = Some r)
    by (vm_compute; reflexivity).
  split; [exact H|]. split; [vm_compute; reflexivity|].
  exact (assess_stage_keys B64.seq_sum twice_cfg (all_answered 1 1) r H).
Defined.

(** * The loader in binary64 *)










(** The shipped document loads, with float weights under the four
    stages; a document without [questions] and one whose second question
    has no [text] end in the assertion error. *)
Lemma load_b64_examples :
  B64.load_assessment_config (b64_document ASSESSMENT_CONFIG) = B64.Done shipped
  ∧ B64.stages shipped = ["FS"; "HM"; "IC"; "SA"]
  ∧ length (B64.questions shipped) = 20%nat
  ∧ Forall (λ q, dom (B64.qweights q) = list_to_set (B64.stages shipped))
           (B64.questions shipped)
  ∧ B64.load_assessment_config (B64.mkRawConfig None (Some ["A"]) None None)
    = B64.AssertionError
  ∧ B64.load_assessment_config (b64_document textless_raw) = B64.AssertionError.
Proof.
  split; [vm_compute; reflexivity|]. split; [by_compute|]. split; [by_compute|].
  split; [by_compute|]. split; by vm_compute.
Qed.
